(** * card-check: rule table loader, anchor extractor and keyword matcher

    A shallow embedding of the decision logic of the card-check scanner
    (the two [app.js] variants):

    - [parseCSV]: the "Keyword,DriverName" table loader,
    - [extractAddressAfterAnchor]: the anchor extractor of the photo-upload
      variant,
    - [findDriver]: the matcher, in its exact-only form (camera variant) and
      in its strict-then-fuzzy form (photo-upload variant).

    JavaScript strings are sequences of UTF-16 code units; they are modelled
    as lists of code units, so that [indexOf], [substring] and the literal
    offsets [+ 3] / [+ 2] of the source count what the source counts. *)

From Stdlib Require Import Ascii String.
From Stdlib Require Import List NArith Bool Arith Lia.
Import ListNotations.

Set Implicit Arguments.

(** ** JavaScript string primitives used by the program *)

Module JS.

(** A UTF-16 code unit. *)
Definition char := N.
Definition jsstring := list char.

(** ASCII literals of the source, as code units. *)
Definition lit (s : string) : jsstring :=
  map N_of_ascii (list_ascii_of_string s).

Definition TAB : char := 9%N.
Definition LF : char := 10%N.
Definition VT : char := 11%N.
Definition FF : char := 12%N.
Definition CR : char := 13%N.
Definition SP : char := 32%N.
Definition COMMA : char := 44%N.
Definition HYPHEN : char := 45%N.
Definition PERIOD : char := 46%N.

(** ECMAScript WhiteSpace and LineTerminator code units: what [trim]
    strips and what the regular-expression class [\s] matches. *)
Definition isWhiteSpace (c : char) : bool :=
  ((9 <=? c) && (c <=? 13) ||
   (c =? 32) || (c =? 160) || (c =? 5760) ||
   (8192 <=? c) && (c <=? 8202) ||
   (c =? 8232) || (c =? 8233) || (c =? 8239) || (c =? 8287) ||
   (c =? 12288) || (c =? 65279))%N.

(** The class [[\s\.\-\,]] of the normalising regular expression. *)
Definition isNoise (c : char) : bool :=
  isWhiteSpace c || (c =? PERIOD)%N || (c =? HYPHEN)%N || (c =? COMMA)%N.

(** [!s] on a string: true exactly for the empty string. *)
Definition isEmpty (s : jsstring) : bool :=
  match s with [] => true | _ :: _ => false end.

(** [s.startsWith(p)]. *)
Fixpoint startsWith (p s : jsstring) : bool :=
  match p, s with
  | [], _ => true
  | _ :: _, [] => false
  | a :: p', b :: s' => (a =? b)%N && startsWith p' s'
  end.

(** [text.indexOf(needle)]: the least index at which [needle] occurs;
    [None] stands for the source's [-1]. *)
Fixpoint indexOf (needle text : jsstring) : option nat :=
  if startsWith needle text then Some 0
  else match text with
       | [] => None
       | _ :: t => option_map S (indexOf needle t)
       end.

(** [text.includes(needle)]. *)
Fixpoint includes (text needle : jsstring) : bool :=
  startsWith needle text ||
  match text with
  | [] => false
  | _ :: t => includes t needle
  end.

(** [s.substring(n)], for [0 <= n]: indices past the end are clamped. *)
Definition substring (n : nat) (s : jsstring) : jsstring := skipn n s.

Fixpoint trimStart (s : jsstring) : jsstring :=
  match s with
  | [] => []
  | c :: t => if isWhiteSpace c then trimStart t else s
  end.

Definition trimEnd (s : jsstring) : jsstring := rev (trimStart (rev s)).

(** [s.trim()]. *)
Definition trim (s : jsstring) : jsstring := trimEnd (trimStart s).

(** Put one more code unit in front of the first piece of a split. *)
Definition consHead (c : char) (pieces : list jsstring) : list jsstring :=
  match pieces with
  | [] => [[c]]
  | p :: ps => (c :: p) :: ps
  end.

(** [s.split(sep)] for a one-unit separator string: every occurrence of
    [sep] ends a piece; the empty string splits into one empty piece. *)
Fixpoint splitOn (sep : char) (s : jsstring) : list jsstring :=
  match s with
  | [] => [[]]
  | c :: rest =>
      if (c =? sep)%N then [] :: splitOn sep rest
      else consHead c (splitOn sep rest)
  end.

(** [s.split(/\r?\n/)]: a line ends at LF, or at CR immediately followed
    by LF (both are consumed); a CR not followed by LF stays in its line. *)
Fixpoint splitLines (s : jsstring) : list jsstring :=
  match s with
  | [] => [[]]
  | c :: rest =>
      if (c =? LF)%N then [] :: splitLines rest
      else if (c =? CR)%N && startsWith [LF] rest then splitLines rest
      else consHead c (splitLines rest)
  end.

(** [s.replace(/[\s\.\-\,]+/g, '')]: every maximal run of class members
    is replaced by nothing, which deletes exactly the class members. *)
Definition removeNoise (s : jsstring) : jsstring :=
  filter (fun c => negb (isNoise c)) s.

(** [pieces.join(sep)] (used to build inputs, not by the program). *)
Fixpoint join (sep : jsstring) (pieces : list jsstring) : jsstring :=
  match pieces with
  | [] => []
  | [p] => p
  | p :: ps => p ++ sep ++ join sep ps
  end.

(** [s.replace(/\s+/g, ' ')]: every maximal run of whitespace becomes one
    space; the space is emitted at the last unit of the run. *)
Fixpoint collapseWhiteSpace (s : jsstring) : jsstring :=
  match s with
  | [] => []
  | c :: t =>
      if isWhiteSpace c then
        match t with
        | [] => [SP]
        | d :: _ =>
            if isWhiteSpace d then collapseWhiteSpace t
            else SP :: collapseWhiteSpace t
        end
      else c :: collapseWhiteSpace t
  end.

End JS.
Import JS.

(** ** The program *)

(** A row of the driver table: [{ keyword: ..., driver: ... }]. *)
Record Rule : Type := mkRule { keyword : jsstring; driver : jsstring }.

(** The Korean literals of the source, as UTF-16 code units. *)
Definition KEYWORD_MARK : jsstring := [53412; 50892; 46300]%N.  (* U+D0A4 U+C6CC U+B4DC *)
Definition HAEUNDAE : jsstring := [54644; 50868; 45824]%N.      (* U+D574 U+C6B4 U+B300 *)
Definition BUSAN : jsstring := [48512; 49328]%N.                (* U+BD80 U+C0B0 *)

(** [lines[0] && lines[0].includes('키워드')] *)
Definition hasHeader (lines : list jsstring) : bool :=
  match lines with
  | [] => false
  | l0 :: _ => negb (isEmpty l0) && includes l0 KEYWORD_MARK
  end.

(** The body of the [for] loop of [parseCSV], over the lines still to be
    visited, threading the array [data] that the source pushes onto. *)
Fixpoint parseLoop (lines : list jsstring) (data : list Rule) : list Rule :=
  match lines with
  | [] => data
  | l :: rest =>
      let line := trim l in
      if isEmpty line then parseLoop rest data
      else
        let parts := splitOn COMMA line in
        if 2 <=? length parts then
          parseLoop rest
            (data ++ [mkRule (trim (nth 0 parts [])) (trim (nth 1 parts []))])
        else parseLoop rest data
  end.

(** [parseCSV(csvText)], the same function in both variants. *)
Definition parseCSV (csvText : jsstring) : list Rule :=
  let lines := splitLines csvText in
  let startLine := if hasHeader lines then 1 else 0 in
  parseLoop (skipn startLine lines) [].

(** [extractAddressAfterAnchor(text)] of the photo-upload variant. *)
Definition extractAddressAfterAnchor (text : jsstring) : jsstring :=
  match indexOf HAEUNDAE text with
  | Some haeundaeIndex => trim (substring (haeundaeIndex + 3) text)
  | None =>
      match indexOf BUSAN text with
      | Some busanIndex => trim (substring (busanIndex + 2) text)
      | None => text
      end
  end.

(** The camera variant: exact substring matching only.  The global
    [driverData] is passed explicitly. *)
Module Camera.

Fixpoint scan (text : jsstring) (rules : list Rule) : option Rule :=
  match rules with
  | [] => None
  | rule :: rest =>
      if includes text (keyword rule) then Some rule
      else scan text rest
  end.

Definition findDriver (driverData : list Rule) (text : jsstring) : option Rule :=
  if isEmpty text then None else scan text driverData.

(** The same loop, reporting the iteration at which it returns: the
    position in [driverData] of the rule object handed back. *)
Fixpoint scanIndex (text : jsstring) (rules : list Rule) : option nat :=
  match rules with
  | [] => None
  | rule :: rest =>
      if includes text (keyword rule) then Some 0
      else option_map S (scanIndex text rest)
  end.

Definition findDriverIndex (driverData : list Rule) (text : jsstring) : option nat :=
  if isEmpty text then None else scanIndex text driverData.

End Camera.

(** The photo-upload variant: each rule is tried strictly, then fuzzily
    (on the normalised text and keyword), before the next rule is looked at. *)
Module Photo.

Fixpoint scan (text normalizedText : jsstring) (rules : list Rule) : option Rule :=
  match rules with
  | [] => None
  | rule :: rest =>
      let normalizedKeyword := removeNoise (keyword rule) in
      if includes text (keyword rule) then Some rule
      else if includes normalizedText normalizedKeyword then Some rule
      else scan text normalizedText rest
  end.

Definition findDriver (driverData : list Rule) (text : jsstring) : option Rule :=
  if isEmpty text then None
  else
    let normalizedText := removeNoise text in
    scan text normalizedText driverData.

Fixpoint scanIndex (text normalizedText : jsstring) (rules : list Rule) : option nat :=
  match rules with
  | [] => None
  | rule :: rest =>
      let normalizedKeyword := removeNoise (keyword rule) in
      if includes text (keyword rule) then Some 0
      else if includes normalizedText normalizedKeyword then Some 0
      else option_map S (scanIndex text normalizedText rest)
  end.

Definition findDriverIndex (driverData : list Rule) (text : jsstring) : option nat :=
  if isEmpty text then None
  else scanIndex text (removeNoise text) driverData.

End Photo.

(** [const cleanedText = text.replace(/\s+/g, ' ').trim()], the first thing
    both scan handlers do with the recognised text. *)
Definition cleanedText (text : jsstring) : jsstring :=
  trim (collapseWhiteSpace text).

(** What [processFrame] (camera variant) hands to the display, as a
    function of the recognised text: [findDriver(cleanedText)]. *)
Definition processFrame (driverData : list Rule) (text : jsstring) : option Rule :=
  Camera.findDriver driverData (cleanedText text).

(** What [processImage] (photo-upload variant) hands to the display:
    [findDriver(extractAddressAfterAnchor(cleanedText))]. *)
Definition processImage (driverData : list Rule) (text : jsstring) : option Rule :=
  let focusText := extractAddressAfterAnchor (cleanedText text) in
  Photo.findDriver driverData focusText.

(** ** Vocabulary of the statements *)

(** [needle] occurs in [text] as a contiguous run of code units. *)
Definition Occurs (needle text : jsstring) : Prop :=
  exists pre post, text = pre ++ needle ++ post.

(** One table row written out as a line: [keyword,driver]. *)
Definition renderRule (r : Rule) : jsstring :=
  keyword r ++ COMMA :: driver r.

(** A field that survives a trip through the loader unchanged: already
    trimmed, and free of the delimiter and of line breaks. *)
Definition plainField (f : jsstring) : Prop :=
  trim f = f /\ ~ In COMMA f /\ ~ In CR f /\ ~ In LF f.

Definition plainRule (r : Rule) : Prop :=
  plainField (keyword r) /\ plainField (driver r).

(** A line of table content: no line-break code unit inside. *)
Definition plainLine (l : jsstring) : Prop := ~ In CR l /\ ~ In LF l.

(** What one line contributes to the table: no rule or one rule. *)
Definition rowOf (l : jsstring) : list Rule := parseLoop [l] [].

(** The lines that the loop of [parseCSV] visits. *)
Definition dataLines (csvText : jsstring) : list jsstring :=
  let lines := splitLines csvText in
  skipn (if hasHeader lines then 1 else 0) lines.

(** The sample label text of the documentation, read letter for letter:
    three periods, "광고", a space, the first anchor, a space, "대로",
    " 123" and three periods. *)
Definition GWANGGO : jsstring := [44305; 44256]%N.  (* U+AD11 U+ACE0 *)
Definition DAERO : jsstring := [45824; 47196]%N.    (* U+B300 U+B85C *)

Definition sampleLabel : jsstring :=
  lit "..." ++ GWANGGO ++ lit " " ++ HAEUNDAE ++ lit " " ++ DAERO ++ lit " 123...".

(** A line that holds the delimiter somewhere. *)
Definition hasComma (l : jsstring) : bool := existsb (N.eqb COMMA) l.

(** Whitespace as [cleanedText] leaves it: single spaces only. *)
Definition singleSpaced (s : jsstring) : Prop :=
  (forall c, In c s -> isWhiteSpace c = true -> c = SP) /\
  ~ Occurs [SP; SP] s.

(** The per-rule tests of the matcher. *)
Definition strictHit (text : jsstring) (rule : Rule) : bool :=
  includes text (keyword rule).

Definition fuzzyHit (text : jsstring) (rule : Rule) : bool :=
  includes (removeNoise text) (removeNoise (keyword rule)).

(** Position of the first element passing a test. *)
Fixpoint firstIndex (A : Type) (p : A -> bool) (l : list A) : option nat :=
  match l with
  | [] => None
  | x :: rest => if p x then Some 0 else option_map S (firstIndex p rest)
  end.

(** Case split on the field-count test [parts.length >= 2]. *)
Ltac case_two_fields :=
  match goal with |- context [2 <=? ?n] => destruct (2 <=? n) end.

(** ** Facts about the string primitives *)

Section Searching.

Lemma startsWith_spec (p s : jsstring) :
  startsWith p s = true <-> exists post, s = p ++ post.
Proof.
  revert s; induction p as [|a p IH]; intros s; simpl.
  - split; [intros _; now exists s | reflexivity].
  - destruct s as [|b s].
    + split; [discriminate | intros [post H]; discriminate].
    + rewrite andb_true_iff, N.eqb_eq, IH. split.
      * intros [-> [post ->]]. now exists post.
      * intros [post H]. injection H as -> ->. split; [reflexivity | now exists post].
Qed.

Lemma startsWith_app (p post : jsstring) : startsWith p (p ++ post) = true.
Proof. apply startsWith_spec. now exists post. Qed.

Lemma includes_nil (text : jsstring) : includes text [] = true.
Proof. destruct text; reflexivity. Qed.

Lemma includes_spec (text needle : jsstring) :
  includes text needle = true <-> Occurs needle text.
Proof.
  unfold Occurs. induction text as [|c t IH]; simpl.
  - rewrite orb_false_r, startsWith_spec. split.
    + intros [post H]. now exists [], post.
    + intros [pre [post H]]. destruct pre; [now exists post | discriminate].
  - rewrite orb_true_iff, startsWith_spec, IH. split.
    + intros [[post H] | [pre [post H]]].
      * now exists [], post.
      * exists (c :: pre), post. simpl. now rewrite H.
    + intros [[|a pre] [post H]].
      * left. now exists post.
      * right. injection H as _ H. now exists pre, post.
Qed.

Lemma includes_false (text needle : jsstring) :
  includes text needle = false <-> ~ Occurs needle text.
Proof.
  rewrite <- includes_spec. destruct (includes text needle); split; congruence.
Qed.

Lemma includes_app (pre needle post : jsstring) :
  includes (pre ++ needle ++ post) needle = true.
Proof. apply includes_spec. now exists pre, post. Qed.

Lemma includes_empty_text (needle : jsstring) :
  includes [] needle = true -> needle = [].
Proof. destruct needle; [reflexivity | discriminate]. Qed.

(** [indexOf] fails exactly when [includes] does. *)
Lemma indexOf_None (needle text : jsstring) :
  indexOf needle text = None <-> includes text needle = false.
Proof.
  induction text as [|c t IH]; simpl.
  - destruct (startsWith needle []); simpl; split; congruence.
  - destruct (startsWith needle (c :: t)); simpl.
    + split; congruence.
    + rewrite <- IH. destruct (indexOf needle t); simpl; split; congruence.
Qed.

(** [indexOf] returns the leftmost occurrence. *)
Lemma indexOf_Some (needle text : jsstring) (i : nat) :
  indexOf needle text = Some i ->
  exists pre post,
    text = pre ++ needle ++ post /\ length pre = i /\
    forall pre' post', text = pre' ++ needle ++ post' -> i <= length pre'.
Proof.
  revert i; induction text as [|c t IH]; intros i; simpl.
  - destruct (startsWith needle []) eqn:E; [|discriminate].
    intros [= <-]. apply startsWith_spec in E as [post E].
    exists [], post. repeat split; [assumption | intros; lia].
  - destruct (startsWith needle (c :: t)) eqn:E.
    + intros [= <-]. apply startsWith_spec in E as [post E].
      exists [], post. repeat split; [assumption | intros; lia].
    + destruct (indexOf needle t) as [j|]; [|discriminate].
      simpl. intros [= <-].
      destruct (IH j eq_refl) as [pre [post [Ht [Hl Hmin]]]].
      exists (c :: pre), post. repeat split.
      * simpl. now rewrite Ht.
      * simpl. now rewrite Hl.
      * intros [|a pre'] post' H.
        -- exfalso. simpl in H.
           assert (startsWith needle (c :: t) = true) as E'
             by (apply startsWith_spec; now exists post').
           congruence.
        -- injection H as _ H. simpl. apply Hmin in H. lia.
Qed.

Lemma skipn_past (pre needle post : jsstring) (i k : nat) :
  length pre = i -> length needle = k ->
  skipn (i + k) (pre ++ needle ++ post) = post.
Proof.
  intros <- <-. rewrite app_assoc, <- length_app.
  rewrite skipn_app, skipn_all, Nat.sub_diag. reflexivity.
Qed.

(** Normalisation commutes with concatenation, so it preserves
    containment: a strict hit is always a fuzzy hit as well. *)
Lemma removeNoise_app (a b : jsstring) :
  removeNoise (a ++ b) = removeNoise a ++ removeNoise b.
Proof. apply filter_app. Qed.

Lemma includes_removeNoise (text needle : jsstring) :
  includes text needle = true ->
  includes (removeNoise text) (removeNoise needle) = true.
Proof.
  rewrite !includes_spec. intros [pre [post ->]].
  exists (removeNoise pre), (removeNoise post).
  now rewrite !removeNoise_app.
Qed.

Lemma removeNoise_all_noise (s : jsstring) :
  forallb isNoise s = true -> removeNoise s = [].
Proof.
  induction s as [|c s IH]; simpl; [reflexivity|].
  rewrite andb_true_iff. intros [Hc Hs]. rewrite Hc. simpl. auto.
Qed.

End Searching.

(** ** First-match search *)

Section FirstIndex.

Variable A : Type.
Variables p q : A -> bool.

Lemma firstIndex_find (l : list A) :
  find p l = match firstIndex p l with
             | Some i => nth_error l i
             | None => None
             end.
Proof.
  induction l as [|x l IH]; simpl; [reflexivity|].
  destruct (p x); [reflexivity|].
  rewrite IH. destruct (firstIndex p l); reflexivity.
Qed.

(** The reported position holds a passing element, and nothing before
    it passes. *)
Lemma firstIndex_Some (l : list A) (i : nat) :
  firstIndex p l = Some i ->
  (exists x, nth_error l i = Some x /\ p x = true) /\
  (forall j y, j < i -> nth_error l j = Some y -> p y = false).
Proof.
  revert i; induction l as [|x l IH]; intros i; simpl; [discriminate|].
  destruct (p x) eqn:E.
  - intros [= <-]. split; [now exists x | intros; lia].
  - destruct (firstIndex p l) as [k|]; [|discriminate].
    simpl. intros [= <-]. destruct (IH k eq_refl) as [Hx Hbefore].
    split; [exact Hx|].
    intros [|j] y Hj Hy; simpl in Hy.
    + congruence.
    + apply (Hbefore j); [lia | assumption].
Qed.

(** A passing element at position [i] forces a result at or before [i]. *)
Lemma firstIndex_hit (l : list A) (i : nat) (x : A) :
  nth_error l i = Some x -> p x = true ->
  exists j, firstIndex p l = Some j /\ j <= i.
Proof.
  revert i; induction l as [|y l IH]; intros i; [destruct i; discriminate|].
  simpl. destruct (p y) eqn:E.
  - intros _ _. exists 0. split; [reflexivity | lia].
  - destruct i as [|i]; simpl.
    + intros [= ->]. congruence.
    + intros Hx Hp. destruct (IH i Hx Hp) as [j [-> Hj]].
      exists (S j). split; [reflexivity | lia].
Qed.

(** A weaker test answers no later than a stronger one. *)
Lemma firstIndex_weaken (l : list A) (i : nat) :
  (forall x, p x = true -> q x = true) ->
  firstIndex p l = Some i ->
  exists j, firstIndex q l = Some j /\ j <= i.
Proof.
  intros Hpq. revert i; induction l as [|y l IH]; intros i; simpl; [discriminate|].
  destruct (p y) eqn:E.
  - intros [= <-]. rewrite (Hpq y E). exists 0. split; [reflexivity | lia].
  - destruct (firstIndex p l) as [k|]; [|discriminate].
    simpl. intros [= <-]. destruct (q y).
    + exists 0. split; [reflexivity | lia].
    + destruct (IH k eq_refl) as [j [-> Hj]].
      exists (S j). split; [reflexivity | lia].
Qed.

End FirstIndex.

Section Matcher.

Variable driverData : list Rule.
Variable text : jsstring.

Lemma Camera_scan_find (rules : list Rule) :
  Camera.scan text rules = find (strictHit text) rules.
Proof.
  induction rules as [|r rules IH]; simpl; [reflexivity|].
  unfold strictHit at 1. now rewrite IH.
Qed.

Lemma Camera_scanIndex_first (rules : list Rule) :
  Camera.scanIndex text rules = firstIndex (strictHit text) rules.
Proof.
  induction rules as [|r rules IH]; simpl; [reflexivity|].
  unfold strictHit at 1. now rewrite IH.
Qed.

(** In the photo-upload loop the strict test is subsumed by the fuzzy
    one, so the loop is a first-match search for the fuzzy test. *)
Lemma strictHit_fuzzyHit (r : Rule) :
  strictHit text r = true -> fuzzyHit text r = true.
Proof. apply includes_removeNoise. Qed.

Lemma Photo_scan_find (rules : list Rule) :
  Photo.scan text (removeNoise text) rules = find (fuzzyHit text) rules.
Proof.
  induction rules as [|r rules IH]; simpl; [reflexivity|].
  fold (strictHit text r). fold (fuzzyHit text r).
  destruct (strictHit text r) eqn:E.
  - now rewrite (strictHit_fuzzyHit r E).
  - rewrite IH. reflexivity.
Qed.

Lemma Photo_scanIndex_first (rules : list Rule) :
  Photo.scanIndex text (removeNoise text) rules = firstIndex (fuzzyHit text) rules.
Proof.
  induction rules as [|r rules IH]; simpl; [reflexivity|].
  fold (strictHit text r). fold (fuzzyHit text r).
  destruct (strictHit text r) eqn:E.
  - now rewrite (strictHit_fuzzyHit r E).
  - rewrite IH. reflexivity.
Qed.

(** The rule handed back is the one stored at the reported position. *)
Lemma Camera_findDriver_at :
  Camera.findDriver driverData text =
  match Camera.findDriverIndex driverData text with
  | Some i => nth_error driverData i
  | None => None
  end.
Proof.
  unfold Camera.findDriver, Camera.findDriverIndex.
  destruct (isEmpty text); [reflexivity|].
  rewrite Camera_scan_find, Camera_scanIndex_first. apply firstIndex_find.
Qed.

Lemma Photo_findDriver_at :
  Photo.findDriver driverData text =
  match Photo.findDriverIndex driverData text with
  | Some i => nth_error driverData i
  | None => None
  end.
Proof.
  unfold Photo.findDriver, Photo.findDriverIndex.
  destruct (isEmpty text); [reflexivity|].
  rewrite Photo_scan_find, Photo_scanIndex_first. apply firstIndex_find.
Qed.

End Matcher.

(** ** The matcher *)

(** C6. The matcher answers "no match" on the empty text, whatever the
    table, and on the empty table, whatever the text; this holds for the
    exact-only variant and for the strict-then-fuzzy variant, and both are
    total functions, so neither case can throw. *)
Theorem findDriver_empty_inputs (driverData : list Rule) (text : jsstring) :
  Camera.findDriver driverData [] = None /\
  Photo.findDriver driverData [] = None /\
  Camera.findDriver [] text = None /\
  Photo.findDriver [] text = None.
Proof.
  repeat split; try reflexivity.
  - unfold Camera.findDriver. destruct (isEmpty text); reflexivity.
  - unfold Photo.findDriver. destruct (isEmpty text); reflexivity.
Qed.

(** C9. Whenever the exact-only matcher returns a rule, the
    strict-then-fuzzy matcher returns a rule too, found at a table position
    no later than the exact-only one. *)
Theorem fuzzy_keeps_exact_matches
    (driverData : list Rule) (text : jsstring) (r : Rule) :
  Camera.findDriver driverData text = Some r ->
  exists i j r',
    Camera.findDriverIndex driverData text = Some i /\
    nth_error driverData i = Some r /\
    Photo.findDriver driverData text = Some r' /\
    Photo.findDriverIndex driverData text = Some j /\
    nth_error driverData j = Some r' /\
    j <= i.
Proof.
  intros H.
  rewrite Camera_findDriver_at in H.
  destruct (Camera.findDriverIndex driverData text) as [i|] eqn:Ei; [|discriminate].
  assert (Ej : exists j, Photo.findDriverIndex driverData text = Some j /\ j <= i).
  { unfold Camera.findDriverIndex in Ei. unfold Photo.findDriverIndex.
    destruct (isEmpty text); [discriminate|].
    rewrite Camera_scanIndex_first in Ei. rewrite Photo_scanIndex_first.
    eapply firstIndex_weaken; [|exact Ei].
    intros x. apply strictHit_fuzzyHit. }
  destruct Ej as [j [Ej Hji]].
  assert (Hj : exists r', nth_error driverData j = Some r').
  { assert (j < length driverData) as Hlt.
    { assert (i < length driverData) by (apply nth_error_Some; congruence). lia. }
    destruct (nth_error driverData j) eqn:E; [eauto|].
    apply nth_error_None in E. lia. }
  destruct Hj as [r' Hr'].
  exists i, j, r'. repeat split; try assumption.
  rewrite Photo_findDriver_at, Ej. exact Hr'.
Qed.

Lemma fuzzy_keeps_exact_matches_witness :
  exists i j r',
    Camera.findDriverIndex
      [mkRule (lit "a b") (lit "X"); mkRule (lit "ab") (lit "Y")] (lit "ab") = Some i /\
    nth_error [mkRule (lit "a b") (lit "X"); mkRule (lit "ab") (lit "Y")] i
      = Some (mkRule (lit "ab") (lit "Y")) /\
    Photo.findDriver
      [mkRule (lit "a b") (lit "X"); mkRule (lit "ab") (lit "Y")] (lit "ab") = Some r' /\
    Photo.findDriverIndex
      [mkRule (lit "a b") (lit "X"); mkRule (lit "ab") (lit "Y")] (lit "ab") = Some j /\
    nth_error [mkRule (lit "a b") (lit "X"); mkRule (lit "ab") (lit "Y")] j = Some r' /\
    j <= i.
Proof.
  apply (@fuzzy_keeps_exact_matches
           [mkRule (lit "a b") (lit "X"); mkRule (lit "ab") (lit "Y")]
           (lit "ab") (mkRule (lit "ab") (lit "Y"))).
  reflexivity.
Defined.

(** C10. In the strict-then-fuzzy matcher, a rule whose keyword is made
    only of whitespace, periods, hyphens and commas matches every non-empty
    text: the matcher returns a rule at or before that rule's position. *)
Theorem noise_only_keyword_matches_everything
    (driverData : list Rule) (text : jsstring) (i : nat) (r : Rule) :
  text <> [] ->
  nth_error driverData i = Some r ->
  forallb isNoise (keyword r) = true ->
  exists j r',
    Photo.findDriverIndex driverData text = Some j /\
    j <= i /\
    nth_error driverData j = Some r' /\
    Photo.findDriver driverData text = Some r'.
Proof.
  intros Htext Hi Hnoise.
  assert (Hhit : fuzzyHit text r = true).
  { unfold fuzzyHit. rewrite (removeNoise_all_noise _ Hnoise). apply includes_nil. }
  destruct (firstIndex_hit (fuzzyHit text) driverData i Hi Hhit) as [j [Ej Hji]].
  assert (Eidx : Photo.findDriverIndex driverData text = Some j).
  { unfold Photo.findDriverIndex. destruct text; [congruence|]. simpl isEmpty.
    cbv iota. now rewrite Photo_scanIndex_first. }
  destruct (firstIndex_Some _ _ Ej) as [[r' [Hr' _]] _].
  exists j, r'. repeat split; try assumption.
  rewrite Photo_findDriver_at, Eidx. exact Hr'.
Qed.

Lemma noise_only_keyword_matches_everything_witness :
  exists j r',
    Photo.findDriverIndex
      [mkRule (lit "zz") (lit "X"); mkRule (lit ".-") (lit "Y")] (lit "abc") = Some j /\
    j <= 1 /\
    nth_error [mkRule (lit "zz") (lit "X"); mkRule (lit ".-") (lit "Y")] j = Some r' /\
    Photo.findDriver
      [mkRule (lit "zz") (lit "X"); mkRule (lit ".-") (lit "Y")] (lit "abc") = Some r'.
Proof.
  apply (@noise_only_keyword_matches_everything
           [mkRule (lit "zz") (lit "X"); mkRule (lit ".-") (lit "Y")]
           (lit "abc") 1 (mkRule (lit ".-") (lit "Y"))).
  - discriminate.
  - reflexivity.
  - reflexivity.
Defined.

(** C1, as stated, fails: with the table ["a b" -> X; "ab" -> Y] and the
    text "ab", the second keyword occurs literally and the first one only
    after normalisation, yet the strict-then-fuzzy matcher hands back the
    first rule: the fuzzy test of a row runs before the strict test of the
    next row. *)
Lemma later_exact_match_does_not_outrank :
  ~ (forall (driverData : list Rule) (text : jsstring) (i j : nat) (ri rj : Rule),
        i < j ->
        nth_error driverData i = Some ri ->
        nth_error driverData j = Some rj ->
        Occurs (keyword rj) text ->
        ~ Occurs (keyword ri) text ->
        Occurs (removeNoise (keyword ri)) (removeNoise text) ->
        Photo.findDriver driverData text = Some rj).
Proof.
  intros claim.
  specialize (claim [mkRule (lit "a b") (lit "X"); mkRule (lit "ab") (lit "Y")]
                    (lit "ab") 0 1
                    (mkRule (lit "a b") (lit "X")) (mkRule (lit "ab") (lit "Y"))).
  assert (H : Photo.findDriver
                [mkRule (lit "a b") (lit "X"); mkRule (lit "ab") (lit "Y")] (lit "ab")
              = Some (mkRule (lit "ab") (lit "Y"))).
  { apply claim.
    - lia.
    - reflexivity.
    - reflexivity.
    - apply includes_spec. reflexivity.
    - apply includes_false. reflexivity.
    - apply includes_spec. reflexivity. }
  vm_compute in H. discriminate H.
Qed.

(** C1, amended. The strict-then-fuzzy matcher settles each row, strictly
    then fuzzily, before it looks at the next one: when an earlier rule's
    keyword occurs in a non-empty text only after normalisation and a later
    rule's keyword occurs literally, the matcher returns a rule at or
    before the earlier rule's position, hence never the later rule. *)
Theorem earlier_fuzzy_match_outranks
    (driverData : list Rule) (text : jsstring) (i j : nat) (ri rj : Rule) :
  text <> [] ->
  i < j ->
  nth_error driverData i = Some ri ->
  nth_error driverData j = Some rj ->
  Occurs (keyword rj) text ->
  ~ Occurs (keyword ri) text ->
  Occurs (removeNoise (keyword ri)) (removeNoise text) ->
  exists k rk,
    Photo.findDriverIndex driverData text = Some k /\
    k <= i /\ k < j /\
    nth_error driverData k = Some rk /\
    Photo.findDriver driverData text = Some rk.
Proof.
  intros Htext Hij Hi _ _ _ Hfuzzy.
  assert (Hhit : fuzzyHit text ri = true) by (apply includes_spec; exact Hfuzzy).
  destruct (firstIndex_hit (fuzzyHit text) driverData i Hi Hhit) as [k [Ek Hki]].
  assert (Eidx : Photo.findDriverIndex driverData text = Some k).
  { unfold Photo.findDriverIndex. destruct text; [congruence|]. simpl isEmpty.
    cbv iota. now rewrite Photo_scanIndex_first. }
  destruct (firstIndex_Some _ _ Ek) as [[rk [Hrk _]] _].
  exists k, rk. repeat split; try assumption; try lia.
  rewrite Photo_findDriver_at, Eidx. exact Hrk.
Qed.

Lemma earlier_fuzzy_match_outranks_witness :
  exists k rk,
    Photo.findDriverIndex
      [mkRule (lit "a b") (lit "X"); mkRule (lit "ab") (lit "Y")] (lit "ab") = Some k /\
    k <= 0 /\ k < 1 /\
    nth_error [mkRule (lit "a b") (lit "X"); mkRule (lit "ab") (lit "Y")] k = Some rk /\
    Photo.findDriver
      [mkRule (lit "a b") (lit "X"); mkRule (lit "ab") (lit "Y")] (lit "ab") = Some rk.
Proof.
  apply (@earlier_fuzzy_match_outranks
           [mkRule (lit "a b") (lit "X"); mkRule (lit "ab") (lit "Y")]
           (lit "ab") 0 1
           (mkRule (lit "a b") (lit "X")) (mkRule (lit "ab") (lit "Y"))).
  - discriminate.
  - lia.
  - reflexivity.
  - reflexivity.
  - apply includes_spec. reflexivity.
  - apply includes_false. reflexivity.
  - apply includes_spec. reflexivity.
Defined.

(** ** Trimming *)

Section Trimming.

(** [trimStart] drops a run of whitespace and keeps the rest. *)
Lemma trimStart_suffix (s : jsstring) :
  exists pre, s = pre ++ trimStart s /\ forallb isWhiteSpace pre = true.
Proof.
  induction s as [|c s [pre [IH1 IH2]]]; simpl.
  - now exists [].
  - destruct (isWhiteSpace c) eqn:E.
    + exists (c :: pre). simpl. rewrite E, IH2. split; [now rewrite <- IH1 | reflexivity].
    + now exists [].
Qed.

Lemma trimStart_head (s t : jsstring) (c : char) :
  trimStart s = c :: t -> isWhiteSpace c = false.
Proof.
  induction s as [|a s IH]; simpl; [discriminate|].
  destruct (isWhiteSpace a) eqn:E; [exact IH|].
  intros [= <- _]. exact E.
Qed.

Lemma trimStart_keeps (s : jsstring) (c : char) :
  isWhiteSpace c = false -> trimStart (c :: s) = c :: s.
Proof. intros E. simpl. now rewrite E. Qed.

Lemma trimStart_nil (s : jsstring) :
  trimStart s = [] -> forallb isWhiteSpace s = true.
Proof.
  intros H. destruct (trimStart_suffix s) as [pre [E Hpre]].
  rewrite H, app_nil_r in E. now subst.
Qed.

Lemma trimStart_length (s : jsstring) : length (trimStart s) <= length s.
Proof.
  destruct (trimStart_suffix s) as [pre [E _]].
  rewrite E at 2. rewrite length_app. lia.
Qed.

Lemma trimStart_same_length (s : jsstring) :
  length (trimStart s) = length s -> trimStart s = s.
Proof.
  intros H. destruct (trimStart_suffix s) as [pre [E _]].
  assert (length pre = 0) as Hp.
  { rewrite E in H at 2. rewrite length_app in H. lia. }
  destruct pre; [|discriminate]. now rewrite E at 2.
Qed.

(** [trimEnd] keeps a prefix. *)
Lemma trimEnd_prefix (s : jsstring) :
  exists post, s = trimEnd s ++ post /\ forallb isWhiteSpace post = true.
Proof.
  unfold trimEnd. destruct (trimStart_suffix (rev s)) as [pre [E Hpre]].
  exists (rev pre). split.
  - rewrite <- rev_app_distr, <- E. symmetry. apply rev_involutive.
  - rewrite forallb_forall in *. intros x Hx. apply Hpre. now apply in_rev.
Qed.

Lemma trimEnd_length (s : jsstring) : length (trimEnd s) <= length s.
Proof.
  unfold trimEnd. rewrite length_rev.
  etransitivity; [apply trimStart_length|]. now rewrite length_rev.
Qed.

(** The first code unit of a trimmed string is not whitespace. *)
Lemma trim_head (s t : jsstring) (c : char) :
  trim s = c :: t -> isWhiteSpace c = false.
Proof.
  unfold trim. intros H.
  destruct (trimEnd_prefix (trimStart s)) as [post [E _]].
  rewrite H in E. simpl in E. exact (trimStart_head _ E).
Qed.

(** A string that starts with a non-whitespace unit does not trim away. *)
Lemma trim_nonempty (s : jsstring) (c : char) :
  isWhiteSpace c = false -> trim (c :: s) <> [].
Proof.
  intros E H. unfold trim in H. rewrite (@trimStart_keeps s c E) in H.
  unfold trimEnd in H.
  assert (trimStart (rev (c :: s)) = []) as H'.
  { destruct (trimStart (rev (c :: s))); [reflexivity|].
    simpl in H. now apply app_eq_nil in H as [_ H]. }
  apply trimStart_nil in H'. rewrite forallb_forall in H'.
  specialize (H' c). rewrite <- in_rev in H'.
  rewrite H' in E; [discriminate | now left].
Qed.

(** Strings without whitespace at either end are left alone, and only
    those. *)
Lemma trim_fixed (s : jsstring) :
  trim s = s <-> trimStart s = s /\ trimStart (rev s) = rev s.
Proof.
  split.
  - intros H.
    assert (length (trimStart s) = length s) as H1.
    { pose proof (trimStart_length s). pose proof (trimEnd_length (trimStart s)).
      unfold trim in H. rewrite H in *. lia. }
    apply trimStart_same_length in H1. split; [exact H1|].
    unfold trim in H. rewrite H1 in H. unfold trimEnd in H.
    apply trimStart_same_length.
    rewrite <- H at 2. now rewrite !length_rev.
  - intros [H1 H2]. unfold trim, trimEnd. rewrite H1, H2. apply rev_involutive.
Qed.

Lemma trimStart_fixed_app (a b : jsstring) (c : char) :
  trimStart a = a -> isWhiteSpace c = false ->
  trimStart (a ++ c :: b) = a ++ c :: b.
Proof.
  intros Ha Hc. destruct a as [|x a].
  - simpl. now rewrite Hc.
  - simpl. destruct (isWhiteSpace x) eqn:E; [|reflexivity].
    exfalso. simpl in Ha. rewrite E in Ha.
    pose proof (trimStart_length a) as Hl. rewrite Ha in Hl. simpl in Hl. lia.
Qed.

(** Two trimmed fields joined by a non-whitespace unit stay trimmed. *)
Lemma trim_fixed_app (a b : jsstring) (c : char) :
  trim a = a -> trim b = b -> isWhiteSpace c = false ->
  trim (a ++ c :: b) = a ++ c :: b.
Proof.
  rewrite !trim_fixed. intros [Ha1 Ha2] [Hb1 Hb2] Hc. split.
  - now apply trimStart_fixed_app.
  - rewrite rev_app_distr. simpl. rewrite <- app_assoc. simpl.
    now apply trimStart_fixed_app.
Qed.

End Trimming.

(** ** Splitting *)

Section Splitting.

Lemma splitOn_nonempty (sep : char) (s : jsstring) : splitOn sep s <> [].
Proof.
  induction s as [|c s IH]; simpl; [discriminate|].
  destruct (c =? sep)%N; [discriminate|].
  destruct (splitOn sep s); [contradiction | discriminate].
Qed.

Lemma splitOn_free (sep : char) (s : jsstring) :
  ~ In sep s -> splitOn sep s = [s].
Proof.
  induction s as [|c s IH]; simpl; [reflexivity|].
  intros H. destruct (N.eqb_spec c sep) as [->|_]; [exfalso; auto|].
  rewrite IH by auto. reflexivity.
Qed.

Lemma splitOn_app (sep : char) (a b : jsstring) :
  ~ In sep a -> splitOn sep (a ++ sep :: b) = a :: splitOn sep b.
Proof.
  induction a as [|c a IH]; simpl.
  - intros _. now rewrite N.eqb_refl.
  - intros H. destruct (N.eqb_spec c sep) as [->|_]; [exfalso; auto|].
    rewrite IH by auto. reflexivity.
Qed.

Lemma splitLines_plain (l : jsstring) : plainLine l -> splitLines l = [l].
Proof.
  unfold plainLine. induction l as [|c l IH]; simpl; [reflexivity|].
  intros [Hcr Hlf].
  destruct (N.eqb_spec c LF) as [->|_]; [exfalso; auto|].
  destruct (N.eqb_spec c CR) as [->|_]; [exfalso; auto|].
  simpl. rewrite IH by (split; auto). reflexivity.
Qed.

Lemma splitLines_app_LF (l rest : jsstring) :
  plainLine l -> splitLines (l ++ LF :: rest) = l :: splitLines rest.
Proof.
  unfold plainLine. induction l as [|c l IH]; simpl; [reflexivity|].
  intros [Hcr Hlf].
  destruct (N.eqb_spec c LF) as [->|_]; [exfalso; auto|].
  destruct (N.eqb_spec c CR) as [->|_]; [exfalso; auto|].
  simpl. rewrite IH by (split; auto). reflexivity.
Qed.

Lemma splitLines_app_CRLF (l rest : jsstring) :
  plainLine l -> splitLines (l ++ CR :: LF :: rest) = l :: splitLines rest.
Proof.
  unfold plainLine. induction l as [|c l IH]; simpl; [reflexivity|].
  intros [Hcr Hlf].
  destruct (N.eqb_spec c LF) as [->|_]; [exfalso; auto|].
  destruct (N.eqb_spec c CR) as [->|_]; [exfalso; auto|].
  simpl. rewrite IH by (split; auto). reflexivity.
Qed.

(** Plain lines joined by LF, or by CR LF, split back into themselves. *)
Lemma splitLines_join_LF (ls : list jsstring) :
  ls <> [] -> Forall plainLine ls -> splitLines (join [LF] ls) = ls.
Proof.
  induction ls as [|l ls IH]; [congruence|]. intros _ H.
  inversion H as [|? ? Hl Hls]; subst.
  destruct ls as [|l' ls].
  - simpl. now apply splitLines_plain.
  - change (join [LF] (l :: l' :: ls)) with (l ++ LF :: join [LF] (l' :: ls)).
    rewrite splitLines_app_LF by assumption.
    rewrite IH by (assumption || discriminate). reflexivity.
Qed.

Lemma splitLines_join_CRLF (ls : list jsstring) :
  ls <> [] -> Forall plainLine ls -> splitLines (join [CR; LF] ls) = ls.
Proof.
  induction ls as [|l ls IH]; [congruence|]. intros _ H.
  inversion H as [|? ? Hl Hls]; subst.
  destruct ls as [|l' ls].
  - simpl. now apply splitLines_plain.
  - change (join [CR; LF] (l :: l' :: ls))
      with (l ++ CR :: LF :: join [CR; LF] (l' :: ls)).
    rewrite splitLines_app_CRLF by assumption.
    rewrite IH by (assumption || discriminate). reflexivity.
Qed.

End Splitting.

(** ** The table loader *)

Section Loader.

#[local] Arguments Nat.leb : simpl never.

(** Pushing onto [data] never touches what is already there. *)
Lemma parseLoop_acc (lines : list jsstring) (data : list Rule) :
  parseLoop lines data = data ++ parseLoop lines [].
Proof.
  revert data; induction lines as [|l lines IH]; intros data; simpl.
  - now rewrite app_nil_r.
  - destruct (isEmpty (trim l)); [apply IH|].
    destruct (2 <=? length (splitOn COMMA (trim l))); [|apply IH].
    rewrite IH. rewrite (IH [_]). now rewrite app_assoc.
Qed.

(** The loop concatenates, in line order, what each line contributes. *)
Lemma parseLoop_flat_map (lines : list jsstring) :
  parseLoop lines [] = flat_map rowOf lines.
Proof.
  induction lines as [|l lines IH]; [reflexivity|].
  simpl. unfold rowOf at 1. simpl.
  destruct (isEmpty (trim l)); [exact IH|].
  destruct (2 <=? length (splitOn COMMA (trim l))); [|exact IH].
  rewrite parseLoop_acc, IH. reflexivity.
Qed.

Lemma parseCSV_flat_map (csvText : jsstring) :
  parseCSV csvText = flat_map rowOf (dataLines csvText).
Proof. unfold parseCSV, dataLines. apply parseLoop_flat_map. Qed.

Lemma rowOf_length (l : jsstring) : length (rowOf l) <= 1.
Proof.
  unfold rowOf. simpl.
  destruct (isEmpty (trim l)); [simpl; lia|].
  destruct (2 <=? length (splitOn COMMA (trim l))); simpl; lia.
Qed.

Lemma dataLines_incl (csvText l : jsstring) :
  In l (dataLines csvText) -> In l (splitLines csvText).
Proof.
  unfold dataLines. intros H.
  rewrite <- (firstn_skipn (if hasHeader (splitLines csvText) then 1 else 0)
                           (splitLines csvText)).
  apply in_or_app. now right.
Qed.

(** The keyword of a row is empty exactly when the trimmed line starts
    with the delimiter. *)
Lemma rowOf_keyword (l : jsstring) (r : Rule) :
  In r (rowOf l) ->
  rowOf l = [r] /\ (keyword r = [] <-> hd_error (trim l) = Some COMMA).
Proof.
  unfold rowOf. simpl.
  destruct (trim l) as [|c t] eqn:Et; simpl; [contradiction|].
  destruct (N.eqb_spec c COMMA) as [->|Hc].
  - simpl. case_two_fields; simpl; [|contradiction].
    intros [<-|[]]. split; [reflexivity|]. simpl. split; reflexivity.
  - destruct (splitOn COMMA t) as [|p ps] eqn:Es; [now apply splitOn_nonempty in Es|].
    simpl. case_two_fields; simpl; [|contradiction].
    intros [<-|[]]. split; [reflexivity|]. simpl. split.
    + intros H. exfalso. revert H. apply trim_nonempty. exact (trim_head _ Et).
    + intros [= H]. contradiction.
Qed.

(** A rendered plain rule is read back as itself. *)
Lemma rowOf_renderRule (r : Rule) : plainRule r -> rowOf (renderRule r) = [r].
Proof.
  intros [[Hk1 [Hk2 _]] [Hd1 [Hd2 _]]]. unfold rowOf, renderRule. simpl.
  rewrite (trim_fixed_app COMMA Hk1 Hd1) by reflexivity.
  rewrite splitOn_app by assumption. rewrite splitOn_free by assumption.
  destruct (keyword r ++ COMMA :: driver r) eqn:E.
  - now apply app_eq_nil in E as [_ E].
  - simpl. rewrite Hk1, Hd1. now destruct r.
Qed.

Lemma renderRule_plainLine (r : Rule) : plainRule r -> plainLine (renderRule r).
Proof.
  intros [[_ [_ [Hk3 Hk4]]] [_ [_ [Hd3 Hd4]]]]. unfold renderRule. split.
  - intros H. apply in_app_or in H as [H|[H|H]]; [auto | discriminate | auto].
  - intros H. apply in_app_or in H as [H|[H|H]]; [auto | discriminate | auto].
Qed.

End Loader.

(** C2, as stated, fails: the line " ,X", whose first field is
    whitespace-only, yields a rule with the empty keyword. *)
Lemma parseCSV_yields_empty_keyword :
  ~ (forall (csvText : jsstring) (r : Rule),
        In r (parseCSV csvText) -> keyword r <> []).
Proof.
  intros claim.
  apply (claim (lit " ,X") (mkRule [] (lit "X"))); [|reflexivity].
  vm_compute. now left.
Qed.

(** C3, as stated, fails: the two rows "a,X" and "b,Y" separated by a bare
    CR are read as the single row "a" -> "X<CR>b", while separated by LF
    they are read as two rows. *)
Lemma bare_CR_is_not_a_line_break :
  ~ (forall ls : list jsstring,
        Forall plainLine ls ->
        parseCSV (join [CR] ls) = parseCSV (join [LF] ls) /\
        parseCSV (join [CR] ls) = parseCSV (join [CR; LF] ls)).
Proof.
  intros claim.
  destruct (claim [lit "a,X"; lit "b,Y"]) as [H _].
  - repeat constructor; intros H; vm_compute in H; intuition discriminate.
  - vm_compute in H. discriminate H.
Qed.

(** C3, amended. The loader breaks lines at LF and at CR LF only: the same
    content lines delimited with LF or with CR LF parse to the same table,
    while a bare CR does not end a line (content delimited with bare CR is
    read as one line). *)
Theorem LF_and_CRLF_parse_alike (ls : list jsstring) :
  Forall plainLine ls ->
  parseCSV (join [LF] ls) = parseCSV (join [CR; LF] ls) /\
  splitLines (join [LF] ls) = splitLines (join [CR; LF] ls) /\
  splitLines (join [CR] ls) = [join [CR] ls].
Proof.
  intros H.
  assert (E : splitLines (join [LF] ls) = splitLines (join [CR; LF] ls)).
  { destruct ls as [|l ls]; [reflexivity|].
    rewrite splitLines_join_LF, splitLines_join_CRLF by (assumption || discriminate).
    reflexivity. }
  split; [|split; [exact E|]].
  - unfold parseCSV. now rewrite E.
  - assert (Hlf : ~ In LF (join [CR] ls)).
    { clear E. induction H as [|l ls [_ Hl] Hls IH]; [auto|].
      destruct ls as [|l' ls]; [exact Hl|].
      change (join [CR] (l :: l' :: ls)) with (l ++ CR :: join [CR] (l' :: ls)).
      intros Hin. apply in_app_or in Hin as [Hin|[Hin|Hin]];
        [exact (Hl Hin) | discriminate | exact (IH Hin)]. }
    revert Hlf. generalize (join [CR] ls) as s. clear.
    induction s as [|c s IH]; [reflexivity|]. intros Hlf. cbn [splitLines].
    destruct (N.eqb_spec c LF) as [->|_]; [exfalso; apply Hlf; now left|].
    assert (startsWith [LF] s = false) as ->.
    { destruct s as [|d s]; [reflexivity|]. cbn [startsWith].
      destruct (N.eqb_spec LF d) as [<-|_]; [|reflexivity].
      exfalso. apply Hlf. right. now left. }
    rewrite andb_false_r. rewrite IH; [reflexivity|].
    intros Hin. apply Hlf. now right.
Qed.

Lemma LF_and_CRLF_parse_alike_witness :
  parseCSV (join [LF] [lit "a,X"; lit "b,Y"])
    = parseCSV (join [CR; LF] [lit "a,X"; lit "b,Y"]) /\
  splitLines (join [LF] [lit "a,X"; lit "b,Y"])
    = splitLines (join [CR; LF] [lit "a,X"; lit "b,Y"]) /\
  splitLines (join [CR] [lit "a,X"; lit "b,Y"])
    = [join [CR] [lit "a,X"; lit "b,Y"]].
Proof.
  apply (@LF_and_CRLF_parse_alike [lit "a,X"; lit "b,Y"]).
  repeat constructor; intros H; vm_compute in H; intuition discriminate.
Defined.

(** C7. The loader keeps file order and duplicates: the three lines
    a,X / b,Y / a,Z give exactly the three rules in that order; in general
    the table is the concatenation, in line order, of what each visited
    line contributes (at most one rule per line), and a list of plain rules
    written one per line is read back unchanged, duplicates included. *)
Theorem parseCSV_keeps_file_order :
  parseCSV (lit "a,X" ++ [LF] ++ lit "b,Y" ++ [LF] ++ lit "a,Z")
    = [mkRule (lit "a") (lit "X"); mkRule (lit "b") (lit "Y");
       mkRule (lit "a") (lit "Z")] /\
  (forall csvText,
      parseCSV csvText = flat_map rowOf (dataLines csvText) /\
      forall l, length (rowOf l) <= 1) /\
  (forall rules : list Rule,
      Forall plainRule rules ->
      (forall r, hd_error rules = Some r -> ~ Occurs KEYWORD_MARK (renderRule r)) ->
      parseCSV (join [LF] (map renderRule rules)) = rules).
Proof.
  split; [reflexivity|]. split.
  - intros csvText. split; [apply parseCSV_flat_map | apply rowOf_length].
  - intros rules Hplain Hhead.
    assert (Hrows : flat_map rowOf (map renderRule rules) = rules).
    { clear Hhead. induction Hplain as [|x xs Hx Hxs IH]; [reflexivity|].
      simpl. rewrite (rowOf_renderRule Hx), IH. reflexivity. }
    destruct rules as [|r rules]; [reflexivity|].
    unfold parseCSV.
    rewrite splitLines_join_LF.
    + assert (hasHeader (map renderRule (r :: rules)) = false) as ->.
      { simpl. apply andb_false_iff. right.
        apply includes_false. now apply Hhead. }
      cbn [skipn]. rewrite parseLoop_flat_map. exact Hrows.
    + discriminate.
    + rewrite Forall_map. revert Hplain. apply Forall_impl.
      intros x. apply renderRule_plainLine.
Qed.

Lemma parseCSV_keeps_file_order_witness :
  parseCSV (join [LF] (map renderRule
              [mkRule (lit "a") (lit "X"); mkRule (lit "b") (lit "Y");
               mkRule (lit "a") (lit "Z")]))
    = [mkRule (lit "a") (lit "X"); mkRule (lit "b") (lit "Y");
       mkRule (lit "a") (lit "Z")].
Proof.
  apply (proj2 (proj2 parseCSV_keeps_file_order)).
  - repeat constructor; try reflexivity;
      intros H; vm_compute in H; intuition discriminate.
  - intros r [= <-]. apply includes_false. reflexivity.
Defined.

(** ** The anchor extractor *)

(** C8. A text that contains neither anchor is returned unchanged; the
    extractor is a total function, so extraction never fails. *)
Theorem no_anchor_returns_text (text : jsstring) :
  ~ Occurs HAEUNDAE text ->
  ~ Occurs BUSAN text ->
  extractAddressAfterAnchor text = text.
Proof.
  intros H1 H2. unfold extractAddressAfterAnchor.
  apply includes_false, indexOf_None in H1.
  apply includes_false, indexOf_None in H2.
  now rewrite H1, H2.
Qed.

Lemma no_anchor_returns_text_witness :
  extractAddressAfterAnchor (GWANGGO ++ lit " 12-3 ") = GWANGGO ++ lit " 12-3 ".
Proof.
  apply (@no_anchor_returns_text (GWANGGO ++ lit " 12-3 ")).
  - apply includes_false. reflexivity.
  - apply includes_false. reflexivity.
Defined.

(** C5, as stated, fails on its own example: on the sample label text the
    extractor keeps everything after the anchor up to the end of the text,
    so the result ends with the three periods and is not "대로 123". *)
Lemma sample_label_keeps_its_tail :
  extractAddressAfterAnchor sampleLabel <> DAERO ++ lit " 123".
Proof. vm_compute. discriminate. Qed.

(** C5, amended. On the sample label text the extractor returns
    "대로 123..." (the whole trimmed remainder), and "대로 123" when nothing
    follows the digits; in general, for every text containing the first
    anchor, the result is the trimmed substring strictly after the leftmost
    occurrence of the first anchor, whether or not the second anchor
    occurs anywhere in the text. *)
Theorem first_anchor_remainder :
  extractAddressAfterAnchor sampleLabel = DAERO ++ lit " 123..." /\
  extractAddressAfterAnchor
    (lit "..." ++ GWANGGO ++ lit " " ++ HAEUNDAE ++ lit " " ++ DAERO ++ lit " 123")
    = DAERO ++ lit " 123" /\
  forall text : jsstring,
    Occurs HAEUNDAE text ->
    exists pre post,
      text = pre ++ HAEUNDAE ++ post /\
      (forall pre' post', text = pre' ++ HAEUNDAE ++ post' ->
                          length pre <= length pre') /\
      extractAddressAfterAnchor text = trim post.
Proof.
  split; [reflexivity|]. split; [reflexivity|].
  intros text H. apply includes_spec in H.
  unfold extractAddressAfterAnchor.
  destruct (indexOf HAEUNDAE text) as [i|] eqn:E.
  - destruct (indexOf_Some _ _ E) as [pre [post [Ht [Hl Hmin]]]].
    exists pre, post. split; [exact Ht|]. split.
    + intros pre' post' H'. rewrite Hl. now apply (Hmin pre' post').
    + unfold substring. rewrite Ht. f_equal.
      now apply skipn_past.
  - apply indexOf_None in E. congruence.
Qed.

Lemma first_anchor_remainder_witness :
  exists pre post,
    BUSAN ++ lit " " ++ HAEUNDAE ++ lit " " ++ DAERO ++ lit " 123 " ++ BUSAN
      = pre ++ HAEUNDAE ++ post /\
    (forall pre' post',
        BUSAN ++ lit " " ++ HAEUNDAE ++ lit " " ++ DAERO ++ lit " 123 " ++ BUSAN
          = pre' ++ HAEUNDAE ++ post' ->
        length pre <= length pre') /\
    extractAddressAfterAnchor
      (BUSAN ++ lit " " ++ HAEUNDAE ++ lit " " ++ DAERO ++ lit " 123 " ++ BUSAN)
      = trim post.
Proof.
  apply (proj2 (proj2 first_anchor_remainder)
           (BUSAN ++ lit " " ++ HAEUNDAE ++ lit " " ++ DAERO ++ lit " 123 " ++ BUSAN)).
  apply includes_spec. reflexivity.
Defined.

(** ** More on trimming *)

Section TrimmingMore.

Lemma trimStart_ws_app (p x : jsstring) :
  forallb isWhiteSpace p = true -> trimStart (p ++ x) = trimStart x.
Proof.
  induction p as [|c p IH]; simpl; [reflexivity|].
  rewrite andb_true_iff. intros [-> Hp]. auto.
Qed.

Lemma trimStart_all_ws (p : jsstring) :
  forallb isWhiteSpace p = true -> trimStart p = [].
Proof.
  intros H. rewrite <- (app_nil_r p). now rewrite trimStart_ws_app.
Qed.

Lemma trimStart_app_keep (a r : jsstring) (c : char) :
  isWhiteSpace c = false -> trimStart (a ++ c :: r) = trimStart a ++ c :: r.
Proof.
  intros Hc. induction a as [|x a IH]; simpl.
  - now rewrite Hc.
  - destruct (isWhiteSpace x); [exact IH | reflexivity].
Qed.

Lemma trimStart_app_nonempty (u v : jsstring) :
  trimStart u <> [] -> trimStart (u ++ v) = trimStart u ++ v.
Proof.
  induction u as [|x u IH]; simpl; [congruence|].
  destruct (isWhiteSpace x); [exact IH | reflexivity].
Qed.

Lemma trimStart_idem (s : jsstring) : trimStart (trimStart s) = trimStart s.
Proof.
  destruct (trimStart s) as [|c t] eqn:E; [reflexivity|].
  apply trimStart_keeps. exact (trimStart_head _ E).
Qed.

Lemma trimEnd_app_keep (r b : jsstring) (c : char) :
  isWhiteSpace c = false -> trimEnd (r ++ c :: b) = r ++ c :: trimEnd b.
Proof.
  intros Hc. unfold trimEnd.
  rewrite rev_app_distr. simpl. rewrite <- app_assoc. simpl.
  rewrite trimStart_app_keep by assumption.
  rewrite rev_app_distr. simpl. rewrite rev_involutive, <- app_assoc. reflexivity.
Qed.

Lemma trimEnd_app_ws (x post : jsstring) :
  forallb isWhiteSpace post = true -> trimEnd (x ++ post) = trimEnd x.
Proof.
  intros H. unfold trimEnd. rewrite rev_app_distr, trimStart_ws_app; [reflexivity|].
  rewrite forallb_forall in *. intros c Hc. apply H. now apply in_rev.
Qed.

(** A non-whitespace unit splits trimming into its two halves. *)
Lemma trim_app_keep (a b : jsstring) (c : char) :
  isWhiteSpace c = false -> trim (a ++ c :: b) = trimStart a ++ c :: trimEnd b.
Proof.
  intros Hc. unfold trim.
  rewrite trimStart_app_keep by assumption. now apply trimEnd_app_keep.
Qed.

Lemma trim_trimStart (a : jsstring) : trim (trimStart a) = trim a.
Proof. unfold trim. now rewrite trimStart_idem. Qed.

Lemma trim_trimEnd (b : jsstring) : trim (trimEnd b) = trim b.
Proof.
  unfold trim. destruct (trimEnd_prefix b) as [post [E Hpost]].
  destruct (trimStart (trimEnd b)) as [|c t] eqn:Eu.
  - apply trimStart_nil in Eu.
    assert (forallb isWhiteSpace b = true) as Hb.
    { rewrite E, forallb_app, Eu, Hpost. reflexivity. }
    now rewrite (trimStart_all_ws _ Hb).
  - rewrite E at 1. rewrite trimStart_app_nonempty by congruence.
    rewrite Eu. now rewrite trimEnd_app_ws.
Qed.

Lemma trim_idem (s : jsstring) : trim (trim s) = trim s.
Proof.
  unfold trim at 2. rewrite trim_trimEnd. apply trim_trimStart.
Qed.

(** Trimming only removes whitespace at the two ends. *)
Lemma trim_decompose (s : jsstring) :
  exists pre post,
    s = pre ++ trim s ++ post /\
    forallb isWhiteSpace pre = true /\ forallb isWhiteSpace post = true.
Proof.
  destruct (trimStart_suffix s) as [pre [E1 Hpre]].
  destruct (trimEnd_prefix (trimStart s)) as [post [E2 Hpost]].
  exists pre, post. unfold trim. now rewrite <- E2.
Qed.

Lemma trim_incl (s : jsstring) (c : char) : In c (trim s) -> In c s.
Proof.
  destruct (trim_decompose s) as [pre [post [E _]]]. intros H.
  rewrite E. apply in_or_app. right. apply in_or_app. now left.
Qed.

Lemma trim_all_ws (s : jsstring) :
  forallb isWhiteSpace s = true -> trim s = [].
Proof. intros H. unfold trim. now rewrite (trimStart_all_ws _ H). Qed.

Lemma trim_nil_all_ws (s : jsstring) :
  trim s = [] -> forallb isWhiteSpace s = true.
Proof.
  intros H. destruct (trim_decompose s) as [pre [post [E [H1 H2]]]].
  rewrite H in E. simpl in E. rewrite E, forallb_app, H1, H2. reflexivity.
Qed.

End TrimmingMore.

(** ** More on the table loader *)

Section LoaderMore.

#[local] Arguments Nat.leb : simpl never.

Lemma first_occurrence (x : char) (l : jsstring) :
  In x l -> exists a b, l = a ++ x :: b /\ ~ In x a.
Proof.
  induction l as [|c l IH]; [contradiction|].
  destruct (N.eq_dec c x) as [->|Hne].
  - intros _. exists [], l. split; [reflexivity | intros []].
  - intros [H|H]; [contradiction|].
    destruct (IH H) as [a [b [-> Ha]]].
    exists (c :: a), b. split; [reflexivity|].
    intros [H'|H']; [contradiction | exact (Ha H')].
Qed.

(** The pieces of a split are free of the separator and made of units of
    the string that was split. *)
Lemma splitOn_pieces (sep : char) (s p : jsstring) :
  In p (splitOn sep s) -> ~ In sep p /\ incl p s.
Proof.
  revert p; induction s as [|c s IH]; intros p; simpl.
  - intros [<-|[]]. split; [intros [] | intros x []].
  - destruct (N.eqb_spec c sep) as [->|Hne].
    + intros [<-|H]; [split; [intros [] | intros x []]|].
      destruct (IH p H) as [H1 H2]. split; [exact H1|].
      intros x Hx. right. now apply H2.
    + destruct (splitOn sep s) as [|q qs] eqn:E; [now apply splitOn_nonempty in E|].
      simpl. intros [<-|H].
      * destruct (IH q (or_introl eq_refl)) as [H1 H2]. split.
        -- intros [H'|H']; [congruence | exact (H1 H')].
        -- intros x [<-|Hx]; [now left | right; now apply H2].
      * destruct (IH p (or_intror H)) as [H1 H2]. split; [exact H1|].
        intros x Hx. right. now apply H2.
Qed.

Lemma splitLines_nonempty (s : jsstring) : splitLines s <> [].
Proof.
  induction s as [|c s IH]; cbn [splitLines]; [discriminate|].
  destruct (c =? LF)%N; [discriminate|].
  destruct ((c =? CR)%N && startsWith [LF] s); [exact IH|].
  destruct (splitLines s); [contradiction | discriminate].
Qed.

(** No line holds an LF, and lines are made of units of the input. *)
Lemma splitLines_pieces (s l : jsstring) :
  In l (splitLines s) -> ~ In LF l /\ incl l s.
Proof.
  revert l; induction s as [|c s IH]; intros l; cbn [splitLines].
  - intros [<-|[]]. split; [intros [] | intros x []].
  - destruct (N.eqb_spec c LF) as [->|Hne].
    + intros [<-|H]; [split; [intros [] | intros x []]|].
      destruct (IH l H) as [H1 H2]. split; [exact H1|].
      intros x Hx. right. now apply H2.
    + destruct ((c =? CR)%N && startsWith [LF] s).
      * intros H. destruct (IH l H) as [H1 H2]. split; [exact H1|].
        intros x Hx. right. now apply H2.
      * destruct (splitLines s) as [|q qs] eqn:E; [now apply splitLines_nonempty in E|].
        simpl. intros [<-|H].
        -- destruct (IH q (or_introl eq_refl)) as [H1 H2]. split.
           ++ intros [H'|H']; [congruence | exact (H1 H')].
           ++ intros x [<-|Hx]; [now left | right; now apply H2].
        -- destruct (IH l (or_intror H)) as [H1 H2]. split; [exact H1|].
           intros x Hx. right. now apply H2.
Qed.

Lemma rowOf_unfold (l : jsstring) :
  rowOf l =
  if isEmpty (trim l) then []
  else if 2 <=? length (splitOn COMMA (trim l)) then
         [mkRule (trim (nth 0 (splitOn COMMA (trim l)) []))
                 (trim (nth 1 (splitOn COMMA (trim l)) []))]
       else [].
Proof.
  unfold rowOf. cbn [parseLoop app].
  destruct (isEmpty (trim l)); [reflexivity|].
  case_two_fields; reflexivity.
Qed.

Lemma trimStart_no_comma (a : jsstring) : ~ In COMMA a -> ~ In COMMA (trimStart a).
Proof.
  intros H H'. apply H. destruct (trimStart_suffix a) as [pre [E _]].
  rewrite E. apply in_or_app. now right.
Qed.

Lemma trimEnd_no_comma (b : jsstring) : ~ In COMMA b -> ~ In COMMA (trimEnd b).
Proof.
  intros H H'. apply H. destruct (trimEnd_prefix b) as [post [E _]].
  rewrite E. apply in_or_app. now left.
Qed.

(** A line with a comma, seen as the loader sees it. *)
Lemma rowOf_comma (a rest : jsstring) :
  ~ In COMMA a ->
  rowOf (a ++ COMMA :: rest) =
  [mkRule (trim a) (trim (nth 0 (splitOn COMMA (trimEnd rest)) []))].
Proof.
  intros Ha. rewrite rowOf_unfold.
  rewrite (@trim_app_keep a rest COMMA) by reflexivity.
  rewrite splitOn_app by now apply trimStart_no_comma.
  destruct (splitOn COMMA (trimEnd rest)) as [|q qs] eqn:E;
    [now apply splitOn_nonempty in E|].
  destruct (trimStart a ++ COMMA :: trimEnd rest) eqn:E';
    [now apply app_eq_nil in E' as [_ E']|].
  cbn [isEmpty length nth]. rewrite trim_trimStart. reflexivity.
Qed.

Lemma rowOf_no_comma (l : jsstring) : ~ In COMMA l -> rowOf l = [].
Proof.
  intros H. rewrite rowOf_unfold.
  destruct (isEmpty (trim l)); [reflexivity|].
  rewrite splitOn_free; [reflexivity|].
  intros H'. apply H. now apply trim_incl.
Qed.

Lemma hasComma_spec (l : jsstring) : hasComma l = true <-> In COMMA l.
Proof.
  unfold hasComma. rewrite existsb_exists. split.
  - intros [x [Hx E]]. apply N.eqb_eq in E. now subst.
  - intros H. exists COMMA. split; [exact H | apply N.eqb_refl].
Qed.

Lemma rowOf_count (l : jsstring) :
  length (rowOf l) = if hasComma l then 1 else 0.
Proof.
  destruct (hasComma l) eqn:E.
  - apply hasComma_spec, first_occurrence in E as [a [b [-> Ha]]].
    now rewrite rowOf_comma.
  - rewrite rowOf_no_comma; [reflexivity|].
    intros H. apply hasComma_spec in H. congruence.
Qed.

Lemma hasHeader_first (h : jsstring) (rest : list jsstring) :
  hasHeader (h :: rest) = includes h KEYWORD_MARK.
Proof. destruct h; reflexivity. Qed.

End LoaderMore.

(** X2. What a row means: the keyword is the trimmed text before the first
    comma, the driver is the trimmed text between the first and the second
    comma (or the end of the line), and whatever follows a second comma is
    ignored. *)
Theorem row_fields (a b extra : jsstring) :
  ~ In COMMA a -> ~ In COMMA b ->
  rowOf (a ++ COMMA :: b) = [mkRule (trim a) (trim b)] /\
  rowOf (a ++ COMMA :: b ++ COMMA :: extra) = [mkRule (trim a) (trim b)].
Proof.
  intros Ha Hb. split.
  - rewrite rowOf_comma by assumption.
    rewrite splitOn_free by now apply trimEnd_no_comma.
    cbn [nth]. now rewrite trim_trimEnd.
  - rewrite rowOf_comma by assumption.
    rewrite (@trimEnd_app_keep b extra COMMA) by reflexivity.
    rewrite splitOn_app by assumption. reflexivity.
Qed.

Lemma row_fields_witness :
  rowOf (lit "  Udong " ++ COMMA :: lit " Kim  ")
    = [mkRule (trim (lit "  Udong ")) (trim (lit " Kim  "))] /\
  rowOf (lit "  Udong " ++ COMMA :: lit " Kim  " ++ COMMA :: lit "010,x ")
    = [mkRule (trim (lit "  Udong ")) (trim (lit " Kim  "))].
Proof.
  apply (@row_fields (lit "  Udong ") (lit " Kim  ") (lit "010,x "));
    intros H; vm_compute in H; intuition discriminate.
Defined.

(** X3. A visited line yields exactly one rule when it contains a comma
    and nothing otherwise (blank lines and comma-less lines are dropped
    silently), so the table has as many rules as there are visited lines
    with a comma. *)
Theorem one_rule_per_comma_line (csvText : jsstring) :
  (forall l, length (rowOf l) = if hasComma l then 1 else 0) /\
  length (parseCSV csvText) = length (filter hasComma (dataLines csvText)).
Proof.
  split; [apply rowOf_count|].
  rewrite parseCSV_flat_map.
  induction (dataLines csvText) as [|l ls IH]; [reflexivity|].
  simpl. rewrite length_app, rowOf_count, IH.
  destruct (hasComma l); reflexivity.
Qed.

(** X4. Every field the loader stores is trimmed and holds neither a
    comma nor a line feed. *)
Theorem parsed_fields_clean (csvText : jsstring) (r : Rule) :
  In r (parseCSV csvText) ->
  (trim (keyword r) = keyword r /\ ~ In COMMA (keyword r) /\ ~ In LF (keyword r)) /\
  (trim (driver r) = driver r /\ ~ In COMMA (driver r) /\ ~ In LF (driver r)).
Proof.
  rewrite parseCSV_flat_map, in_flat_map. intros [l [Hl Hr]].
  apply dataLines_incl, splitLines_pieces in Hl as [Hlf _].
  rewrite rowOf_unfold in Hr.
  destruct (isEmpty (trim l)); [contradiction|].
  destruct (2 <=? length (splitOn COMMA (trim l))) eqn:E; [|contradiction].
  apply Nat.leb_le in E. destruct Hr as [<-|[]]. cbn [keyword driver].
  assert (forall i, i < 2 ->
            trim (trim (nth i (splitOn COMMA (trim l)) []))
              = trim (nth i (splitOn COMMA (trim l)) []) /\
            ~ In COMMA (trim (nth i (splitOn COMMA (trim l)) [])) /\
            ~ In LF (trim (nth i (splitOn COMMA (trim l)) []))) as Hfield.
  { intros i Hi.
    assert (In (nth i (splitOn COMMA (trim l)) []) (splitOn COMMA (trim l))) as Hin
      by (apply nth_In; lia).
    apply splitOn_pieces in Hin as [Hc Hsub].
    split; [apply trim_idem|]. split.
    - intros H. apply Hc. now apply trim_incl.
    - intros H. apply Hlf. apply trim_incl. apply Hsub. now apply trim_incl. }
  split; apply Hfield; lia.
Qed.

Lemma parsed_fields_clean_witness :
  (trim (keyword (mkRule (lit "a b") (lit "X"))) = keyword (mkRule (lit "a b") (lit "X")) /\
   ~ In COMMA (keyword (mkRule (lit "a b") (lit "X"))) /\
   ~ In LF (keyword (mkRule (lit "a b") (lit "X")))) /\
  (trim (driver (mkRule (lit "a b") (lit "X"))) = driver (mkRule (lit "a b") (lit "X")) /\
   ~ In COMMA (driver (mkRule (lit "a b") (lit "X"))) /\
   ~ In LF (driver (mkRule (lit "a b") (lit "X")))).
Proof.
  apply (@parsed_fields_clean (lit "  a b , X ,zz") (mkRule (lit "a b") (lit "X"))).
  vm_compute. left. reflexivity.
Defined.

(** ** More on the matcher *)

Section FindFacts.

Variable A : Type.
Variable p : A -> bool.

Lemma find_Some_split (l : list A) (r : A) :
  find p l = Some r <->
  exists pre post,
    l = pre ++ r :: post /\ p r = true /\ forall x, In x pre -> p x = false.
Proof.
  induction l as [|y l IH]; simpl.
  - split; [discriminate|]. intros [pre [post [E _]]]. destruct pre; discriminate.
  - destruct (p y) eqn:Ey.
    + split.
      * intros [= <-]. exists [], l. repeat split; [assumption | intros x []].
      * intros [[|z pre] [post [E [Hr Hpre]]]].
        -- injection E as ->. reflexivity.
        -- injection E as <- _. rewrite (Hpre y (or_introl eq_refl)) in Ey. discriminate.
    + rewrite IH. split.
      * intros [pre [post [-> [Hr Hpre]]]]. exists (y :: pre), post.
        repeat split; [assumption|]. intros x [<-|Hx]; auto.
      * intros [[|z pre] [post [E [Hr Hpre]]]].
        -- injection E as -> _. congruence.
        -- injection E as _ ->. exists pre, post.
           repeat split; [assumption|]. intros x Hx. apply Hpre. now right.
Qed.

Lemma find_None_all (l : list A) :
  find p l = None <-> forall x, In x l -> p x = false.
Proof.
  split; [intros H x; now apply find_none|].
  induction l as [|y l IH]; simpl; [reflexivity|]. intros H.
  rewrite (H y (or_introl eq_refl)). apply IH. intros x Hx. apply H. now right.
Qed.

Lemma find_append (l m : list A) :
  find p (l ++ m) = match find p l with Some x => Some x | None => find p m end.
Proof.
  induction l as [|y l IH]; simpl; [reflexivity|].
  destruct (p y); [reflexivity | exact IH].
Qed.

End FindFacts.

Section MatcherMore.

Variable driverData : list Rule.

Lemma isEmpty_false (text : jsstring) : text <> [] -> isEmpty text = false.
Proof. destruct text; [congruence | reflexivity]. Qed.

Lemma Camera_findDriver_find (text : jsstring) :
  text <> [] -> Camera.findDriver driverData text = find (strictHit text) driverData.
Proof.
  intros H. unfold Camera.findDriver. rewrite (isEmpty_false H).
  apply Camera_scan_find.
Qed.

Lemma Photo_findDriver_find (text : jsstring) :
  text <> [] -> Photo.findDriver driverData text = find (fuzzyHit text) driverData.
Proof.
  intros H. unfold Photo.findDriver. rewrite (isEmpty_false H).
  apply Photo_scan_find.
Qed.

Lemma Camera_findDriver_nonempty (text : jsstring) (r : Rule) :
  Camera.findDriver driverData text = Some r -> text <> [].
Proof. intros H ->. discriminate H. Qed.

Lemma Photo_findDriver_nonempty (text : jsstring) (r : Rule) :
  Photo.findDriver driverData text = Some r -> text <> [].
Proof. intros H ->. discriminate H. Qed.

End MatcherMore.

(** X5. The exact-only matcher returns a rule exactly when the text is
    non-empty and that rule is the first of the table whose keyword occurs
    in the text; it answers "no match" exactly when the text is empty or no
    keyword of the table occurs in it. *)
Theorem exact_matcher_first_match (driverData : list Rule) (text : jsstring) :
  (forall r,
      Camera.findDriver driverData text = Some r <->
      text <> [] /\
      exists pre post,
        driverData = pre ++ r :: post /\
        Occurs (keyword r) text /\
        forall x, In x pre -> ~ Occurs (keyword x) text) /\
  (Camera.findDriver driverData text = None <->
   text = [] \/ forall x, In x driverData -> ~ Occurs (keyword x) text).
Proof.
  destruct text as [|c t] eqn:Et.
  - split.
    + intros r. split; [discriminate | intros [H _]; congruence].
    + split; [now left | reflexivity].
  - rewrite <- Et. assert (Hne : text <> []) by congruence.
    rewrite (Camera_findDriver_find driverData Hne). split.
    + intros r. rewrite find_Some_split. split.
      * intros [pre [post [E [Hr Hpre]]]]. split; [exact Hne|].
        exists pre, post. repeat split; [exact E | now apply includes_spec |].
        intros x Hx. apply includes_false. now apply Hpre.
      * intros [_ [pre [post [E [Hr Hpre]]]]].
        exists pre, post. repeat split; [exact E | now apply includes_spec |].
        intros x Hx. apply includes_false. now apply Hpre.
    + rewrite find_None_all. split.
      * intros H. right. intros x Hx. apply includes_false. now apply H.
      * intros [H|H] x Hx; [congruence|]. apply includes_false. now apply H.
Qed.

(** X6. The strict-then-fuzzy matcher returns a rule exactly when the text
    is non-empty and that rule is the first of the table whose normalised
    keyword occurs in the normalised text: the strict test never decides
    anything the fuzzy test would not. *)
Theorem fuzzy_matcher_first_match (driverData : list Rule) (text : jsstring) :
  (forall r,
      Photo.findDriver driverData text = Some r <->
      text <> [] /\
      exists pre post,
        driverData = pre ++ r :: post /\
        Occurs (removeNoise (keyword r)) (removeNoise text) /\
        forall x, In x pre -> ~ Occurs (removeNoise (keyword x)) (removeNoise text)) /\
  (Photo.findDriver driverData text = None <->
   text = [] \/
   forall x, In x driverData -> ~ Occurs (removeNoise (keyword x)) (removeNoise text)).
Proof.
  destruct text as [|c t] eqn:Et.
  - split.
    + intros r. split; [discriminate | intros [H _]; congruence].
    + split; [now left | reflexivity].
  - rewrite <- Et. assert (Hne : text <> []) by congruence.
    rewrite (Photo_findDriver_find driverData Hne). split.
    + intros r. rewrite find_Some_split. split.
      * intros [pre [post [E [Hr Hpre]]]]. split; [exact Hne|].
        exists pre, post. repeat split; [exact E | now apply includes_spec |].
        intros x Hx. apply includes_false. now apply Hpre.
      * intros [_ [pre [post [E [Hr Hpre]]]]].
        exists pre, post. repeat split; [exact E | now apply includes_spec |].
        intros x Hx. apply includes_false. now apply Hpre.
    + rewrite find_None_all. split.
      * intros H. right. intros x Hx. apply includes_false. now apply H.
      * intros [H|H] x Hx; [congruence|]. apply includes_false. now apply H.
Qed.

(** X7. The strict-then-fuzzy matcher cannot tell apart two non-empty
    texts that differ only in whitespace, periods, hyphens and commas. *)
Theorem fuzzy_matcher_ignores_noise
    (driverData : list Rule) (text1 text2 : jsstring) :
  text1 <> [] -> text2 <> [] ->
  removeNoise text1 = removeNoise text2 ->
  Photo.findDriver driverData text1 = Photo.findDriver driverData text2.
Proof.
  intros H1 H2 E.
  rewrite (Photo_findDriver_find driverData H1), (Photo_findDriver_find driverData H2).
  unfold fuzzyHit. now rewrite E.
Qed.

Lemma fuzzy_matcher_ignores_noise_witness :
  Photo.findDriver [mkRule (lit "U-dong 12") (lit "Kim")] (lit "Udong, 1.2")
    = Photo.findDriver [mkRule (lit "U-dong 12") (lit "Kim")] (lit "U dong12").
Proof.
  apply (@fuzzy_matcher_ignores_noise
           [mkRule (lit "U-dong 12") (lit "Kim")] (lit "Udong, 1.2") (lit "U dong12")).
  - discriminate.
  - discriminate.
  - reflexivity.
Defined.

(** X8. Rules appended to the table never change a match that the shorter
    table already gives; they are consulted only when it gives none. *)
Theorem appended_rules_come_last (driverData more : list Rule) (text : jsstring) :
  Camera.findDriver (driverData ++ more) text =
    match Camera.findDriver driverData text with
    | Some r => Some r
    | None => Camera.findDriver more text
    end /\
  Photo.findDriver (driverData ++ more) text =
    match Photo.findDriver driverData text with
    | Some r => Some r
    | None => Photo.findDriver more text
    end.
Proof.
  destruct text as [|c t] eqn:Et; [split; reflexivity|].
  rewrite <- Et. assert (Hne : text <> []) by congruence.
  rewrite !(Camera_findDriver_find _ Hne), !(Photo_findDriver_find _ Hne).
  split; apply find_append.
Qed.

(** X9. In the exact-only matcher a rule with the empty keyword is a
    catch-all: it, or a rule before it, is returned for every non-empty
    text, and no rule behind it is ever returned. *)
Theorem empty_keyword_shadows_the_rest
    (driverData : list Rule) (i : nat) (r : Rule) (text : jsstring) :
  nth_error driverData i = Some r ->
  keyword r = [] ->
  (text <> [] -> exists j, Camera.findDriverIndex driverData text = Some j) /\
  (forall j, Camera.findDriverIndex driverData text = Some j ->
             j <= i /\ Camera.findDriver driverData text = nth_error driverData j).
Proof.
  intros Hi Hk.
  assert (Hhit : strictHit text r = true).
  { unfold strictHit. rewrite Hk. apply includes_nil. }
  destruct (firstIndex_hit (strictHit text) driverData i Hi Hhit) as [k [Ek Hki]].
  unfold Camera.findDriverIndex at 1 2. rewrite Camera_findDriver_at.
  destruct (isEmpty text) eqn:Ee.
  - split; [destruct text; [congruence | discriminate]|].
    unfold Camera.findDriverIndex. rewrite Ee. discriminate.
  - rewrite Camera_scanIndex_first, Ek. split; [intros _; now exists k|].
    intros j [= <-]. split; [exact Hki|].
    unfold Camera.findDriverIndex. rewrite Ee, Camera_scanIndex_first, Ek. reflexivity.
Qed.

Lemma empty_keyword_shadows_the_rest_witness :
  (lit "zcd" <> [] ->
   exists j, Camera.findDriverIndex
               [mkRule (lit "ab") (lit "X"); mkRule [] (lit "Y");
                mkRule (lit "cd") (lit "Z")] (lit "zcd") = Some j) /\
  (forall j,
      Camera.findDriverIndex
        [mkRule (lit "ab") (lit "X"); mkRule [] (lit "Y");
         mkRule (lit "cd") (lit "Z")] (lit "zcd") = Some j ->
      j <= 1 /\
      Camera.findDriver
        [mkRule (lit "ab") (lit "X"); mkRule [] (lit "Y");
         mkRule (lit "cd") (lit "Z")] (lit "zcd")
      = nth_error
          [mkRule (lit "ab") (lit "X"); mkRule [] (lit "Y");
           mkRule (lit "cd") (lit "Z")] j).
Proof.
  apply (@empty_keyword_shadows_the_rest
           [mkRule (lit "ab") (lit "X"); mkRule [] (lit "Y");
            mkRule (lit "cd") (lit "Z")] 1 (mkRule [] (lit "Y")) (lit "zcd")).
  - reflexivity.
  - reflexivity.
Defined.

(** ** More on the anchor extractor *)

Section ExtractorMore.

Lemma trim_length (s : jsstring) : length (trim s) <= length s.
Proof.
  unfold trim. etransitivity; [apply trimEnd_length | apply trimStart_length].
Qed.

Lemma trim_occurs (s : jsstring) : Occurs (trim s) s.
Proof.
  destruct (trim_decompose s) as [pre [post [E _]]]. now exists pre, post.
Qed.

Lemma Occurs_trans (a b c : jsstring) : Occurs a b -> Occurs b c -> Occurs a c.
Proof.
  intros [p1 [q1 ->]] [p2 [q2 ->]]. exists (p2 ++ p1), (q1 ++ q2).
  now rewrite <- !app_assoc.
Qed.

Lemma Occurs_removeNoise (a b : jsstring) :
  Occurs a b -> Occurs (removeNoise a) (removeNoise b).
Proof.
  intros [pre [post ->]]. exists (removeNoise pre), (removeNoise post).
  now rewrite !removeNoise_app.
Qed.

(** What each branch of the extractor returns, in terms of the text
    around the anchor it found. *)
Lemma extract_after (anchor text : jsstring) (i : nat) :
  indexOf anchor text = Some i ->
  exists pre post,
    text = pre ++ anchor ++ post /\
    (forall pre' post', text = pre' ++ anchor ++ post' -> length pre <= length pre') /\
    trim (substring (i + length anchor) text) = trim post.
Proof.
  intros E. destruct (indexOf_Some _ _ E) as [pre [post [Ht [Hl Hmin]]]].
  exists pre, post. split; [exact Ht|]. split.
  - intros pre' post' H'. rewrite Hl. now apply (Hmin pre' post').
  - unfold substring. rewrite Ht at 1. f_equal. now apply skipn_past.
Qed.

(** The extractor returns a contiguous part of its input. *)
Lemma extract_occurs (text : jsstring) :
  Occurs (extractAddressAfterAnchor text) text.
Proof.
  unfold extractAddressAfterAnchor.
  destruct (indexOf HAEUNDAE text) as [i|] eqn:E1.
  - destruct (extract_after _ _ E1) as [pre [post [Ht [_ Hr]]]].
    change (length HAEUNDAE) with 3 in Hr. rewrite Hr.
    apply (Occurs_trans (trim_occurs post)). rewrite Ht at 1.
    exists (pre ++ HAEUNDAE), []. now rewrite app_nil_r, <- app_assoc.
  - destruct (indexOf BUSAN text) as [i|] eqn:E2.
    + destruct (extract_after _ _ E2) as [pre [post [Ht [_ Hr]]]].
      change (length BUSAN) with 2 in Hr. rewrite Hr.
      apply (Occurs_trans (trim_occurs post)). rewrite Ht at 1.
      exists (pre ++ BUSAN), []. now rewrite app_nil_r, <- app_assoc.
    + exists [], []. now rewrite app_nil_r.
Qed.

End ExtractorMore.

(** X10. When the first anchor is absent and the second one occurs, the
    result is the trimmed text strictly after the leftmost occurrence of
    the second anchor. *)
Theorem second_anchor_remainder (text : jsstring) :
  ~ Occurs HAEUNDAE text ->
  Occurs BUSAN text ->
  exists pre post,
    text = pre ++ BUSAN ++ post /\
    (forall pre' post', text = pre' ++ BUSAN ++ post' -> length pre <= length pre') /\
    extractAddressAfterAnchor text = trim post.
Proof.
  intros H1 H2. unfold extractAddressAfterAnchor.
  apply includes_false, indexOf_None in H1. rewrite H1.
  destruct (indexOf BUSAN text) as [i|] eqn:E.
  - exact (extract_after _ _ E).
  - apply indexOf_None, includes_false in E. contradiction.
Qed.

Lemma second_anchor_remainder_witness :
  exists pre post,
    lit "ad " ++ BUSAN ++ lit " Jung-gu 7 " ++ BUSAN ++ lit "x"
      = pre ++ BUSAN ++ post /\
    (forall pre' post',
        lit "ad " ++ BUSAN ++ lit " Jung-gu 7 " ++ BUSAN ++ lit "x"
          = pre' ++ BUSAN ++ post' ->
        length pre <= length pre') /\
    extractAddressAfterAnchor
      (lit "ad " ++ BUSAN ++ lit " Jung-gu 7 " ++ BUSAN ++ lit "x") = trim post.
Proof.
  apply (@second_anchor_remainder
           (lit "ad " ++ BUSAN ++ lit " Jung-gu 7 " ++ BUSAN ++ lit "x")).
  - apply includes_false. reflexivity.
  - apply includes_spec. reflexivity.
Defined.

(** X11. The result is never longer than the text, and it is strictly
    shorter exactly when one of the two anchors occurs: the length test by
    which [processImage] chooses its status line is a test for "an anchor
    was found". *)
Theorem shorter_iff_anchor_found (text : jsstring) :
  length (extractAddressAfterAnchor text) <= length text /\
  (length (extractAddressAfterAnchor text) < length text <->
   Occurs HAEUNDAE text \/ Occurs BUSAN text).
Proof.
  unfold extractAddressAfterAnchor.
  destruct (indexOf HAEUNDAE text) as [i|] eqn:E1.
  - destruct (extract_after _ _ E1) as [pre [post [Ht [_ Hr]]]].
    change (length HAEUNDAE) with 3 in Hr. rewrite Hr.
    pose proof (trim_length post) as Hl.
    assert (length text = length pre + 3 + length post) as Hlen.
    { rewrite Ht at 1. rewrite !length_app. simpl. lia. }
    split; [lia|]. split; [|lia]. intros _. left. now exists pre, post.
  - destruct (indexOf BUSAN text) as [i|] eqn:E2.
    + destruct (extract_after _ _ E2) as [pre [post [Ht [_ Hr]]]].
      change (length BUSAN) with 2 in Hr. rewrite Hr.
      pose proof (trim_length post) as Hl.
      assert (length text = length pre + 2 + length post) as Hlen.
      { rewrite Ht at 1. rewrite !length_app. simpl. lia. }
      split; [lia|]. split; [|lia]. intros _. right. now exists pre, post.
    + split; [lia|]. split; [lia|].
      apply indexOf_None, includes_false in E1.
      apply indexOf_None, includes_false in E2. tauto.
Qed.

(** X12. Anchoring never invents a match: the text handed to the matcher
    is a contiguous part of the recognised text, and whenever the
    strict-then-fuzzy matcher finds a rule in the text after the anchor, it
    also finds one, at a table position no later, in the whole text. *)
Theorem anchoring_never_invents
    (driverData : list Rule) (text : jsstring) (i : nat) :
  Photo.findDriverIndex driverData (extractAddressAfterAnchor text) = Some i ->
  Occurs (extractAddressAfterAnchor text) text /\
  exists j, Photo.findDriverIndex driverData text = Some j /\ j <= i.
Proof.
  intros H. split; [apply extract_occurs|].
  unfold Photo.findDriverIndex in *.
  destruct (isEmpty (extractAddressAfterAnchor text)) eqn:Ef; [discriminate|].
  assert (isEmpty text = false) as ->.
  { destruct text; [discriminate Ef | reflexivity]. }
  rewrite Photo_scanIndex_first in *.
  eapply firstIndex_weaken; [|exact H].
  intros x Hx. unfold fuzzyHit in *. apply includes_spec.
  apply includes_spec in Hx.
  exact (Occurs_trans Hx (Occurs_removeNoise (extract_occurs text))).
Qed.

Lemma anchoring_never_invents_witness :
  Occurs (extractAddressAfterAnchor (lit "ab " ++ HAEUNDAE ++ lit " a-b"))
         (lit "ab " ++ HAEUNDAE ++ lit " a-b") /\
  exists j,
    Photo.findDriverIndex
      [mkRule (lit "zz") (lit "X"); mkRule (lit "ab") (lit "Y")]
      (lit "ab " ++ HAEUNDAE ++ lit " a-b") = Some j /\ j <= 1.
Proof.
  apply (@anchoring_never_invents
           [mkRule (lit "zz") (lit "X"); mkRule (lit "ab") (lit "Y")]
           (lit "ab " ++ HAEUNDAE ++ lit " a-b") 1).
  reflexivity.
Defined.

(** ** Cleaning the recognised text *)

Section Cleaning.

Lemma SP_is_ws : isWhiteSpace SP = true.
Proof. reflexivity. Qed.

Lemma collapse_cons_keep (c : char) (t : jsstring) :
  isWhiteSpace c = false ->
  collapseWhiteSpace (c :: t) = c :: collapseWhiteSpace t.
Proof. intros H. cbn [collapseWhiteSpace]. now rewrite H. Qed.

(** The only whitespace the collapsed text holds is the space. *)
Lemma collapse_only_spaces (s : jsstring) (c : char) :
  In c (collapseWhiteSpace s) -> isWhiteSpace c = true -> c = SP.
Proof.
  induction s as [|x s IH]; [intros []|]. cbn [collapseWhiteSpace].
  destruct (isWhiteSpace x) eqn:Ex.
  - destruct s as [|d s'].
    + intros [<-|[]] _. reflexivity.
    + destruct (isWhiteSpace d); [exact IH|].
      intros [<-|H] Hc; [reflexivity | now apply IH].
  - intros [<-|H] Hc; [congruence | now apply IH].
Qed.

(** Non-whitespace units all survive. *)
Lemma collapse_keeps (s : jsstring) (c : char) :
  In c s -> isWhiteSpace c = false -> In c (collapseWhiteSpace s).
Proof.
  induction s as [|x s IH]; [intros []|]. cbn [collapseWhiteSpace].
  intros [->|H] Hc.
  - rewrite Hc. now left.
  - destruct (isWhiteSpace x).
    + destruct s as [|d s']; [contradiction|].
      destruct (isWhiteSpace d); [now apply IH | right; now apply IH].
    + right. now apply IH.
Qed.

Lemma collapse_all_ws (s : jsstring) :
  forallb isWhiteSpace s = true ->
  forallb isWhiteSpace (collapseWhiteSpace s) = true.
Proof.
  induction s as [|x s IH]; [reflexivity|]. cbn [collapseWhiteSpace forallb].
  rewrite andb_true_iff. intros [-> Hs].
  destruct s as [|d s']; [reflexivity|].
  assert (isWhiteSpace d = true) as -> by (simpl in Hs; now apply andb_true_iff in Hs).
  now apply IH.
Qed.

(** No two spaces in a row. *)
Lemma collapse_no_double (s : jsstring) : ~ Occurs [SP; SP] (collapseWhiteSpace s).
Proof.
  induction s as [|x s IH]; intros [pre [post E]].
  - destruct pre; discriminate.
  - cbn [collapseWhiteSpace] in E. destruct (isWhiteSpace x) eqn:Ex.
    + destruct s as [|d s'].
      * destruct pre as [|? [|? ?]]; discriminate.
      * destruct (isWhiteSpace d) eqn:Ed.
        -- apply IH. now exists pre, post.
        -- destruct pre as [|y pre].
           ++ rewrite (@collapse_cons_keep d s' Ed) in E. simpl in E.
              injection E as E _. rewrite E in Ed. discriminate.
           ++ injection E as _ E. apply IH. now exists pre, post.
    + destruct pre as [|y pre].
      * simpl in E. injection E as E _. rewrite E in Ex. discriminate.
      * injection E as _ E. apply IH. now exists pre, post.
Qed.

Lemma singleSpaced_part (a b : jsstring) :
  Occurs a b -> singleSpaced b -> singleSpaced a.
Proof.
  intros Hab [H1 H2]. split.
  - destruct Hab as [pre [post ->]]. intros c Hc. apply H1.
    apply in_or_app. right. apply in_or_app. now left.
  - intros H. apply H2. exact (Occurs_trans H Hab).
Qed.

Lemma singleSpaced_tail (c : char) (t : jsstring) :
  singleSpaced (c :: t) -> singleSpaced t.
Proof. apply singleSpaced_part. now exists [c], []; rewrite app_nil_r. Qed.

(** Text that is already single-spaced is left alone. *)
Lemma collapse_fixed (s : jsstring) :
  singleSpaced s -> collapseWhiteSpace s = s.
Proof.
  induction s as [|c t IH]; [reflexivity|]. intros H.
  pose proof (IH (singleSpaced_tail H)) as IHt.
  cbn [collapseWhiteSpace]. destruct (isWhiteSpace c) eqn:Ec.
  - assert (c = SP) as -> by (apply (proj1 H); [now left | exact Ec]).
    destruct t as [|d t']; [reflexivity|].
    destruct (isWhiteSpace d) eqn:Ed.
    + exfalso. assert (d = SP) as ->
        by (apply (proj1 H); [right; now left | exact Ed]).
      apply (proj2 H). now exists [], t'.
    + now rewrite IHt.
  - now rewrite IHt.
Qed.

Lemma cleanedText_singleSpaced (text : jsstring) : singleSpaced (cleanedText text).
Proof.
  apply (singleSpaced_part (trim_occurs (collapseWhiteSpace text))). split.
  - apply collapse_only_spaces.
  - apply collapse_no_double.
Qed.

Lemma removeNoise_all_ws (s : jsstring) :
  forallb isWhiteSpace s = true -> removeNoise s = [].
Proof.
  intros H. apply removeNoise_all_noise.
  rewrite forallb_forall in *. intros c Hc. unfold isNoise. now rewrite (H c Hc).
Qed.

Lemma removeNoise_trim (s : jsstring) : removeNoise (trim s) = removeNoise s.
Proof.
  destruct (trim_decompose s) as [pre [post [E [H1 H2]]]].
  rewrite E at 2. rewrite !removeNoise_app.
  rewrite (removeNoise_all_ws _ H1), (removeNoise_all_ws _ H2).
  now rewrite app_nil_r.
Qed.

Lemma removeNoise_collapse (s : jsstring) :
  removeNoise (collapseWhiteSpace s) = removeNoise s.
Proof.
  induction s as [|x s IH]; [reflexivity|].
  cbn [collapseWhiteSpace]. destruct (isWhiteSpace x) eqn:Ex.
  - assert (removeNoise (x :: s) = removeNoise s) as ->.
    { unfold removeNoise. simpl. unfold isNoise. now rewrite Ex. }
    destruct s as [|d s']; [reflexivity|].
    destruct (isWhiteSpace d); [exact IH|].
    rewrite <- IH. reflexivity.
  - unfold removeNoise in *. simpl. now rewrite IH.
Qed.

Lemma removeNoise_cleanedText (text : jsstring) :
  removeNoise (cleanedText text) = removeNoise text.
Proof. unfold cleanedText. now rewrite removeNoise_trim, removeNoise_collapse. Qed.

Lemma cleanedText_nil_iff (text : jsstring) :
  cleanedText text = [] <-> forallb isWhiteSpace text = true.
Proof.
  unfold cleanedText. split.
  - intros H. apply trim_nil_all_ws in H. apply forallb_forall. intros c Hc.
    destruct (isWhiteSpace c) eqn:Ec; [reflexivity|].
    rewrite forallb_forall in H. rewrite <- Ec. apply H. now apply collapse_keeps.
  - intros H. apply trim_all_ws. now apply collapse_all_ws.
Qed.

End Cleaning.

(** X13. The cleaned text is in normal form: its only whitespace is the
    single space, never two in a row and never at either end; cleaning it
    again changes nothing. *)
Theorem cleanedText_normal_form (text : jsstring) :
  singleSpaced (cleanedText text) /\
  trim (cleanedText text) = cleanedText text /\
  cleanedText (cleanedText text) = cleanedText text.
Proof.
  split; [apply cleanedText_singleSpaced|].
  assert (Ht : trim (cleanedText text) = cleanedText text) by apply trim_idem.
  split; [exact Ht|].
  unfold cleanedText at 1.
  rewrite (collapse_fixed (cleanedText_singleSpaced text)). exact Ht.
Qed.

(** X14. A recognised text made of whitespace only (the empty text
    included) is cleaned to the empty text, and both scan handlers then
    report no rule, whatever the table. *)
Theorem blank_recognition_matches_nothing
    (driverData : list Rule) (text : jsstring) :
  forallb isWhiteSpace text = true ->
  cleanedText text = [] /\
  processFrame driverData text = None /\
  processImage driverData text = None.
Proof.
  intros H. apply cleanedText_nil_iff in H.
  unfold processFrame, processImage. rewrite H. repeat split.
Qed.

Lemma blank_recognition_matches_nothing_witness :
  cleanedText [SP; LF; TAB; 12288%N] = [] /\
  processFrame [mkRule [] (lit "Y")] [SP; LF; TAB; 12288%N] = None /\
  processImage [mkRule [] (lit "Y")] [SP; LF; TAB; 12288%N] = None.
Proof.
  apply (@blank_recognition_matches_nothing
           [mkRule [] (lit "Y")] [SP; LF; TAB; 12288%N]).
  reflexivity.
Defined.

(** X15. Cleaning is invisible to the strict-then-fuzzy matcher: on a
    recognised text that is not blank it gives the same answer for the
    cleaned text as for the raw text. *)
Theorem cleaning_invisible_to_fuzzy_matcher
    (driverData : list Rule) (text : jsstring) :
  cleanedText text <> [] ->
  Photo.findDriver driverData (cleanedText text) = Photo.findDriver driverData text.
Proof.
  intros H.
  assert (Hne : text <> []) by (intros ->; now apply H).
  rewrite (Photo_findDriver_find driverData H), (Photo_findDriver_find driverData Hne).
  unfold fuzzyHit. now rewrite removeNoise_cleanedText.
Qed.

Lemma cleaning_invisible_to_fuzzy_matcher_witness :
  Photo.findDriver [mkRule (lit "a b") (lit "X")] (cleanedText (lit "  z a" ++ [LF; TAB] ++ lit "b "))
  = Photo.findDriver [mkRule (lit "a b") (lit "X")] (lit "  z a" ++ [LF; TAB] ++ lit "b ").
Proof.
  apply (@cleaning_invisible_to_fuzzy_matcher
           [mkRule (lit "a b") (lit "X")] (lit "  z a" ++ [LF; TAB] ++ lit "b ")).
  vm_compute. discriminate.
Defined.

(** X16. A rule reported by the camera handler is a rule of the table
    whose keyword occurs literally in the cleaned text; hence its keyword
    is single-spaced: a keyword holding a tab, a no-break space or two
    spaces in a row is never reported by that variant. *)
Theorem processFrame_sound (driverData : list Rule) (text : jsstring) (r : Rule) :
  processFrame driverData text = Some r ->
  In r driverData /\
  Occurs (keyword r) (cleanedText text) /\
  singleSpaced (keyword r).
Proof.
  unfold processFrame. intros H.
  pose proof (@Camera_findDriver_nonempty _ _ _ H) as Hne.
  rewrite (Camera_findDriver_find driverData Hne) in H.
  apply find_some in H as [Hin Hhit].
  apply includes_spec in Hhit.
  split; [exact Hin|]. split; [exact Hhit|].
  exact (singleSpaced_part Hhit (cleanedText_singleSpaced text)).
Qed.

Lemma processFrame_sound_witness :
  In (mkRule (lit "a b") (lit "X")) [mkRule (lit "a  b") (lit "W"); mkRule (lit "a b") (lit "X")] /\
  Occurs (keyword (mkRule (lit "a b") (lit "X"))) (cleanedText (lit " a  b ")) /\
  singleSpaced (keyword (mkRule (lit "a b") (lit "X"))).
Proof.
  apply (@processFrame_sound
           [mkRule (lit "a  b") (lit "W"); mkRule (lit "a b") (lit "X")]
           (lit " a  b ") (mkRule (lit "a b") (lit "X"))).
  reflexivity.
Defined.

(** X17. A rule reported by the photo-upload handler is a rule of the
    table whose normalised keyword occurs in the normalised recognised
    text: neither cleaning nor anchoring lets a rule through that a fuzzy
    search of the raw text would not find. *)
Theorem processImage_sound (driverData : list Rule) (text : jsstring) (r : Rule) :
  processImage driverData text = Some r ->
  In r driverData /\
  Occurs (removeNoise (keyword r)) (removeNoise text).
Proof.
  unfold processImage. cbv zeta. intros H.
  pose proof (@Photo_findDriver_nonempty _ _ _ H) as Hne.
  rewrite (Photo_findDriver_find driverData Hne) in H.
  apply find_some in H as [Hin Hhit].
  apply includes_spec in Hhit.
  split; [exact Hin|].
  rewrite <- (removeNoise_cleanedText text).
  exact (Occurs_trans Hhit (Occurs_removeNoise (extract_occurs (cleanedText text)))).
Qed.

Lemma processImage_sound_witness :
  In (mkRule (lit "U-dong") (lit "Kim")) [mkRule (lit "U-dong") (lit "Kim")] /\
  Occurs (removeNoise (keyword (mkRule (lit "U-dong") (lit "Kim"))))
         (removeNoise (lit "ad  " ++ HAEUNDAE ++ lit " U dong 12")).
Proof.
  apply (@processImage_sound
           [mkRule (lit "U-dong") (lit "Kim")]
           (lit "ad  " ++ HAEUNDAE ++ lit " U dong 12")
           (mkRule (lit "U-dong") (lit "Kim"))).
  reflexivity.
Defined.

(** ** Blank lines *)

Lemma rowOf_blank (b : jsstring) : forallb isWhiteSpace b = true -> rowOf b = [].
Proof. intros H. rewrite rowOf_unfold, (trim_all_ws _ H). reflexivity. Qed.

(** X18. A blank line (empty, or spaces and tabs only) anywhere after the
    first line changes nothing; in particular a newline at the very end of
    the file is harmless. *)
Theorem blank_lines_ignored (h b : jsstring) (ls1 ls2 : list jsstring) :
  Forall plainLine (h :: ls1 ++ ls2) ->
  plainLine b ->
  forallb isWhiteSpace b = true ->
  parseCSV (join [LF] (h :: ls1 ++ b :: ls2)) = parseCSV (join [LF] (h :: ls1 ++ ls2)).
Proof.
  intros Hls Hb Hws.
  assert (Hls' : Forall plainLine (h :: ls1 ++ b :: ls2)).
  { inversion Hls as [|? ? Hh Hrest]; subst. constructor; [exact Hh|].
    apply Forall_app in Hrest as [H1 H2]. apply Forall_app. split; [exact H1|].
    now constructor. }
  unfold parseCSV.
  rewrite !splitLines_join_LF by (assumption || discriminate).
  rewrite !hasHeader_first.
  assert (flat_map rowOf (ls1 ++ b :: ls2) = flat_map rowOf (ls1 ++ ls2)) as Hrows.
  { rewrite !flat_map_app. simpl. now rewrite (rowOf_blank _ Hws). }
  destruct (includes h KEYWORD_MARK); cbn [skipn]; rewrite !parseLoop_flat_map.
  - exact Hrows.
  - simpl. now rewrite Hrows.
Qed.

Lemma blank_lines_ignored_witness :
  parseCSV (join [LF] (lit "a,X" :: [lit "b,Y"] ++ [] :: []))
  = parseCSV (join [LF] (lit "a,X" :: [lit "b,Y"] ++ [])).
Proof.
  apply (@blank_lines_ignored (lit "a,X") [] [lit "b,Y"] []).
  - repeat constructor; intros H; vm_compute in H; intuition discriminate.
  - split; intros [].
  - reflexivity.
Defined.

(** ** Rows with an empty keyword *)

Lemma ws_no_comma (ws : jsstring) :
  forallb isWhiteSpace ws = true -> ~ In COMMA ws.
Proof.
  intros H Hin. rewrite forallb_forall in H. specialize (H _ Hin). discriminate H.
Qed.

(** A line whose first field is empty or whitespace-only is read as a row
    with the empty keyword. *)
Lemma rowOf_blank_first_field (ws rest : jsstring) :
  forallb isWhiteSpace ws = true ->
  hd_error (trim (ws ++ COMMA :: rest)) = Some COMMA /\
  rowOf (ws ++ COMMA :: rest)
    = [mkRule [] (trim (nth 0 (splitOn COMMA (trimEnd rest)) []))].
Proof.
  intros H. split.
  - rewrite (@trim_app_keep ws rest COMMA) by reflexivity.
    now rewrite (trimStart_all_ws _ H).
  - rewrite rowOf_comma by now apply ws_no_comma.
    now rewrite (trim_all_ws _ H).
Qed.

(** C2, amended. Every rule of the table comes from one visited line of
    the input, and its keyword is empty exactly when that line, once
    trimmed, begins with the comma; and every visited line whose first
    comma-separated field is empty or whitespace-only does put a rule into
    the table, with the empty keyword. *)
Theorem keyword_empty_iff_leading_comma (csvText : jsstring) :
  (forall r,
      In r (parseCSV csvText) ->
      exists l,
        In l (dataLines csvText) /\ In l (splitLines csvText) /\
        rowOf l = [r] /\
        (keyword r = [] <-> hd_error (trim l) = Some COMMA)) /\
  (forall ws rest,
      forallb isWhiteSpace ws = true ->
      In (ws ++ COMMA :: rest) (dataLines csvText) ->
      hd_error (trim (ws ++ COMMA :: rest)) = Some COMMA /\
      exists r,
        rowOf (ws ++ COMMA :: rest) = [r] /\
        keyword r = [] /\
        In r (parseCSV csvText)).
Proof.
  split.
  - intros r. rewrite parseCSV_flat_map, in_flat_map. intros [l [Hl Hr]].
    exists l. split; [exact Hl|]. split; [now apply dataLines_incl|].
    now apply rowOf_keyword.
  - intros ws rest Hws Hl.
    destruct (@rowOf_blank_first_field ws rest Hws) as [Hhd Hrow].
    split; [exact Hhd|].
    eexists. split; [exact Hrow|]. split; [reflexivity|].
    rewrite parseCSV_flat_map, in_flat_map.
    exists (ws ++ COMMA :: rest). split; [exact Hl|].
    rewrite Hrow. now left.
Qed.

Lemma keyword_empty_iff_leading_comma_witness :
  (exists l,
      In l (dataLines (lit "a,Y" ++ LF :: lit " ,X")) /\
      In l (splitLines (lit "a,Y" ++ LF :: lit " ,X")) /\
      rowOf l = [mkRule [] (lit "X")] /\
      (keyword (mkRule [] (lit "X")) = [] <-> hd_error (trim l) = Some COMMA)) /\
  (hd_error (trim (lit " " ++ COMMA :: lit "X")) = Some COMMA /\
   exists r,
     rowOf (lit " " ++ COMMA :: lit "X") = [r] /\
     keyword r = [] /\
     In r (parseCSV (lit "a,Y" ++ LF :: lit " ,X"))).
Proof.
  split.
  - apply (proj1 (keyword_empty_iff_leading_comma (lit "a,Y" ++ LF :: lit " ,X"))
             (mkRule [] (lit "X"))).
    vm_compute. right. left. reflexivity.
  - apply (proj2 (keyword_empty_iff_leading_comma (lit "a,Y" ++ LF :: lit " ,X"))
             (lit " ") (lit "X")).
    + reflexivity.
    + vm_compute. right. left. reflexivity.
Defined.

(** ** The first occurring keyword *)

Lemma firstIndex_split (A : Type) (p : A -> bool) (pre post : list A) (r : A) :
  (forall x, In x pre -> p x = false) -> p r = true ->
  firstIndex p (pre ++ r :: post) = Some (length pre).
Proof.
  intros Hpre Hr. induction pre as [|y pre IH]; simpl.
  - now rewrite Hr.
  - rewrite (Hpre y (or_introl eq_refl)).
    rewrite IH; [reflexivity|]. intros x Hx. apply Hpre. now right.
Qed.

Lemma Occurs_nonempty (needle text : jsstring) :
  Occurs needle text -> needle <> [] -> text <> [].
Proof.
  intros [pre [post ->]] Hn E.
  apply app_eq_nil in E as [_ E]. apply app_eq_nil in E as [E _]. contradiction.
Qed.

(** The exact-only matcher on a table in which [r] is the first rule whose
    keyword occurs in a non-empty text. *)
Lemma Camera_first_hit (pre post : list Rule) (r : Rule) (text : jsstring) :
  text <> [] ->
  (forall x, In x pre -> ~ Occurs (keyword x) text) ->
  Occurs (keyword r) text ->
  Camera.findDriver (pre ++ r :: post) text = Some r /\
  Camera.findDriverIndex (pre ++ r :: post) text = Some (length pre).
Proof.
  intros Hne Hpre Hr.
  assert (Eidx : Camera.findDriverIndex (pre ++ r :: post) text = Some (length pre)).
  { unfold Camera.findDriverIndex. rewrite (isEmpty_false Hne).
    rewrite Camera_scanIndex_first. apply firstIndex_split.
    - intros x Hx. apply includes_false. now apply Hpre.
    - now apply includes_spec. }
  split; [|exact Eidx].
  rewrite Camera_findDriver_at, Eidx.
  rewrite nth_error_app2 by lia. now rewrite Nat.sub_diag.
Qed.

(** C4. Rule keywords being non-empty: when a later rule's keyword is a
    substring of an earlier rule's keyword and the text contains the
    shorter (later) keyword literally but not the longer (earlier) one,
    the exact-only matcher returns the later rule.  This holds for the
    table made of the two rules, and for every table that holds them in
    that order among other rules, provided none of the other rules ahead
    of the later one has its keyword in the text: the answer is the first
    rule in table order whose keyword occurs, with no preference for the
    longer or more specific keyword. *)
Theorem first_occurring_keyword_wins (r1 r2 : Rule) (text : jsstring) :
  keyword r2 <> [] ->
  Occurs (keyword r2) (keyword r1) ->
  Occurs (keyword r2) text ->
  ~ Occurs (keyword r1) text ->
  (Camera.findDriver [r1; r2] text = Some r2 /\
   Camera.findDriverIndex [r1; r2] text = Some 1) /\
  (forall pre mid post : list Rule,
      (forall x, In x (pre ++ mid) -> ~ Occurs (keyword x) text) ->
      Camera.findDriver (pre ++ r1 :: mid ++ r2 :: post) text = Some r2 /\
      Camera.findDriverIndex (pre ++ r1 :: mid ++ r2 :: post) text
        = Some (length pre + 1 + length mid)).
Proof.
  intros Hk _ Hshort Hlong.
  pose proof (Occurs_nonempty Hshort Hk) as Hne.
  assert (General : forall pre mid post : list Rule,
             (forall x, In x (pre ++ mid) -> ~ Occurs (keyword x) text) ->
             Camera.findDriver (pre ++ r1 :: mid ++ r2 :: post) text = Some r2 /\
             Camera.findDriverIndex (pre ++ r1 :: mid ++ r2 :: post) text
               = Some (length pre + 1 + length mid)).
  { intros pre mid post Hothers.
    replace (pre ++ r1 :: mid ++ r2 :: post)
      with ((pre ++ r1 :: mid) ++ r2 :: post)
      by (rewrite <- app_assoc; reflexivity).
    replace (length pre + 1 + length mid) with (length (pre ++ r1 :: mid))
      by (rewrite length_app; simpl; lia).
    apply Camera_first_hit; [exact Hne | | exact Hshort].
    intros x Hx. apply in_app_or in Hx as [Hx|[<-|Hx]].
    - apply Hothers. apply in_or_app. now left.
    - exact Hlong.
    - apply Hothers. apply in_or_app. now right. }
  split; [|exact General].
  apply (General [] [] []). intros x [].
Qed.

Lemma first_occurring_keyword_wins_witness :
  (Camera.findDriver
     [mkRule (lit "abc") (lit "X"); mkRule (lit "ab") (lit "Y")] (lit "xaby")
     = Some (mkRule (lit "ab") (lit "Y")) /\
   Camera.findDriverIndex
     [mkRule (lit "abc") (lit "X"); mkRule (lit "ab") (lit "Y")] (lit "xaby") = Some 1) /\
  (Camera.findDriver
     ([mkRule (lit "q") (lit "W")] ++ mkRule (lit "abc") (lit "X")
        :: [] ++ mkRule (lit "ab") (lit "Y") :: [mkRule (lit "a") (lit "Z")])
     (lit "xaby")
     = Some (mkRule (lit "ab") (lit "Y")) /\
   Camera.findDriverIndex
     ([mkRule (lit "q") (lit "W")] ++ mkRule (lit "abc") (lit "X")
        :: [] ++ mkRule (lit "ab") (lit "Y") :: [mkRule (lit "a") (lit "Z")])
     (lit "xaby")
     = Some (length [mkRule (lit "q") (lit "W")] + 1 + length (@nil Rule))).
Proof.
  assert (H : keyword (mkRule (lit "ab") (lit "Y")) <> [] /\
              Occurs (keyword (mkRule (lit "ab") (lit "Y")))
                     (keyword (mkRule (lit "abc") (lit "X"))) /\
              Occurs (keyword (mkRule (lit "ab") (lit "Y"))) (lit "xaby") /\
              ~ Occurs (keyword (mkRule (lit "abc") (lit "X"))) (lit "xaby")).
  { split; [discriminate|]. split; [apply includes_spec; reflexivity|].
    split; [apply includes_spec; reflexivity | apply includes_false; reflexivity]. }
  destruct H as [H1 [H2 [H3 H4]]].
  destruct (@first_occurring_keyword_wins
              (mkRule (lit "abc") (lit "X")) (mkRule (lit "ab") (lit "Y"))
              (lit "xaby") H1 H2 H3 H4) as [Two General].
  split; [exact Two|].
  apply (General [mkRule (lit "q") (lit "W")] [] [mkRule (lit "a") (lit "Z")]).
  intros x [<-|[]]. apply includes_false. reflexivity.
Defined.

(** ** The first line *)

(** The first line, as the loader splits it off: it runs up to the first
    LF, less a CR that stands right before that LF, or to the end of the
    input when there is no LF. *)
Lemma splitLines_first (s : jsstring) :
  exists h rest,
    splitLines s = h :: rest /\ ~ In LF h /\
    ((s = h /\ rest = []) \/
     exists s', (s = h ++ LF :: s' \/ s = h ++ CR :: LF :: s') /\
                rest = splitLines s').
Proof.
  induction s as [|c t IH].
  - exists [], []. split; [reflexivity|]. split; [intros []|]. now left.
  - cbn [splitLines]. destruct (N.eqb_spec c LF) as [->|Hlf].
    + exists [], (splitLines t). split; [reflexivity|]. split; [intros []|].
      right. exists t. split; [now left | reflexivity].
    + destruct (N.eqb_spec c CR) as [->|Hcr]; cbn [andb].
      * destruct t as [|d t'].
        -- exists [CR], []. split; [reflexivity|].
           split; [intros [H|[]]; discriminate H|]. now left.
        -- cbn [startsWith]. destruct (N.eqb_spec LF d) as [<-|Hd]; cbn [andb].
           ++ cbn [splitLines]. rewrite N.eqb_refl.
              exists [], (splitLines t'). split; [reflexivity|]. split; [intros []|].
              right. exists t'. split; [now right | reflexivity].
           ++ destruct IH as [h [rest [E [Hh Hdec]]]]. rewrite E.
              exists (CR :: h), rest. split; [reflexivity|].
              split; [intros [H|H]; [discriminate H | exact (Hh H)]|].
              destruct Hdec as [[-> ->]|[s' [[->| ->] ->]]].
              ** now left.
              ** right. exists s'. split; [now left | reflexivity].
              ** right. exists s'. split; [now right | reflexivity].
      * destruct IH as [h [rest [E [Hh Hdec]]]]. rewrite E.
        exists (c :: h), rest. split; [reflexivity|].
        split; [intros [H|H]; [congruence | exact (Hh H)]|].
        destruct Hdec as [[-> ->]|[s' [[->| ->] ->]]].
        -- now left.
        -- right. exists s'. split; [now left | reflexivity].
        -- right. exists s'. split; [now right | reflexivity].
Qed.

(** X1. Header sniffing looks at the first line only and at nothing but
    the marker.  For every input, with [h] the first line (the text up to
    the first LF, less a CR right before it, or the whole input when it
    has no LF) and [rest] the lines after it: the table is what [rest]
    contributes, line by line, preceded by what [h] contributes unless [h]
    contains "키워드"; so the first line is left out exactly when it holds
    the marker, even when it is a well-formed row, and every later line is
    read as data whatever it contains. *)
Theorem header_sniffing (csvText : jsstring) :
  exists h rest,
    splitLines csvText = h :: rest /\
    ~ In LF h /\
    ((csvText = h /\ rest = []) \/
     exists s', (csvText = h ++ LF :: s' \/ csvText = h ++ CR :: LF :: s') /\
                rest = splitLines s') /\
    parseCSV csvText =
      (if includes h KEYWORD_MARK then [] else rowOf h) ++ flat_map rowOf rest.
Proof.
  destruct (splitLines_first csvText) as [h [rest [E [Hh Hdec]]]].
  exists h, rest. split; [exact E|]. split; [exact Hh|]. split; [exact Hdec|].
  unfold parseCSV. rewrite E, hasHeader_first.
  destruct (includes h KEYWORD_MARK); cbn [skipn]; apply parseLoop_flat_map.
Qed.
